(** * ow_autonomy: the lander interface of the PLEXIL adapter

    A shallow embedding of [src/plexil-adapter/OwInterface.cpp]: the
    registry of lander operations ([Running], [mark_operation_running],
    [mark_operation_finished]), the pan/tilt completion check
    ([managePanTilt]), the torque-limit sets ([handle_overtorque]), the
    fault-message callbacks ([checkFaultMessages]), the joint-state
    callback and the action dispatch ([runAction], [guardedMoveAction]).

    Conventions of the embedding.
    - C++ [double] is Rocq's primitive binary64 [float]; [int] and the
      unsigned fault words are [Z] (only [==], [!=], [!] and [&] are
      applied to them, so no wrap-around arises).
    - The file-level statics and the members of [OwInterface] are the
      fields of one record, [World]; every function is a state
      transformer over it that may fail the way the C++ does
      ([std::map::at] on a missing key, an index past the end of a
      [std::vector], [->] on a null publisher, [std::terminate] when
      a joinable [std::thread] is destroyed).
    - Everything the code sends out (ROS log lines, [publish] calls,
      the command status callback, goals, topic messages, fault-watch
      threads) is appended to [trace], in program order.
    - A callback or a command entry point runs atomically.  An action
      thread takes no lock: it is cut at its one blocking call,
      [waitForResult], and again right after the assignment that sets
      its registry entry idle, so that other steps can come between
      that assignment and the rest of the thread.
    - A status callback has been registered with
      [setCommandStatusCallback]; it and the [publish] functions of the
      executive return. *)

From Stdlib Require Import ZArith PrimFloat Lia.
From stdpp Require Import gmap strings list sorting.

#[local] Open Scope Z_scope.

(** ** Utilities *)

(* M_PI, as <cmath> defines it for binary64. *)
Definition M_PI : float := 0x1.921fb54442d18p+1%float.
Definition D2R : float := PrimFloat.div M_PI 180%float.
Definition R2D : float := PrimFloat.div 180%float M_PI.

(* 0.2 and 0.01, rounded to binary64 as the compiler does. *)
Definition DegreeTolerance : float := 0x1.999999999999ap-3%float.
Definition VelocityTolerance : float := 0x1.47ae147ae147bp-7%float.

Definition fabs (x : float) : float := PrimFloat.abs x.

Definition within_tolerance (val1 val2 tolerance : float) : bool :=
  PrimFloat.leb (fabs (PrimFloat.sub val1 val2)) tolerance.

(** ** Time

    Modelled from the spec: [ros::Time] and [ros::Duration] come from
    the ROS client library; an instant is a count of nanoseconds, a
    duration of [secs] seconds is added to it, and instants compare by
    that count. *)
Definition Time : Type := Z.
Definition Duration (secs : Z) : Z := secs * 1000000000.

(* seconds *)
Definition PanTiltTimeout : Z := 5.

(** ** Lander operations *)

Definition Op_GuardedMove : string := "Guarded_move".
Definition Op_DigCircular : string := "DigCircular".
Definition Op_DigLinear : string := "DigLinear".
Definition Op_Deliver : string := "Deliver".
Definition Op_PanAntenna : string := "PanAntenna".
Definition Op_TiltAntenna : string := "TiltAntenna".
Definition Op_Grind : string := "Grind".
Definition Op_Stow : string := "Stow".
Definition Op_Unstow : string := "Unstow".
Definition Op_TakePicture : string := "TakePicture".

Inductive LanderOps :=
| GuardedMove | DigCircular | DigLinear | Deliver | Pan | Tilt
| Grind | Stow | Unstow | TakePicture.

Definition LanderOpNames : list string :=
  [ Op_GuardedMove; Op_DigCircular; Op_DigLinear; Op_Deliver;
    Op_PanAntenna; Op_TiltAntenna; Op_Grind; Op_Stow; Op_Unstow;
    Op_TakePicture ].

(* Position of the enumerator, as in [LanderOpNames[OpIndex]]. *)
Definition OpIndex (op : LanderOps) : nat :=
  match op with
  | GuardedMove => 0 | DigCircular => 1 | DigLinear => 2 | Deliver => 3
  | Pan => 4 | Tilt => 5 | Grind => 6 | Stow => 7 | Unstow => 8
  | TakePicture => 9
  end%nat.

Definition LanderOpName (op : LanderOps) : string :=
  default "" (LanderOpNames !! OpIndex op).

(* Unused operation ID that signifies idle lander operation. *)
Definition IDLE_ID : Z := -1.

Definition Running_init : gmap string Z :=
  list_to_map
    [ (Op_GuardedMove, IDLE_ID); (Op_DigCircular, IDLE_ID);
      (Op_DigLinear, IDLE_ID); (Op_Deliver, IDLE_ID);
      (Op_PanAntenna, IDLE_ID); (Op_TiltAntenna, IDLE_ID);
      (Op_Grind, IDLE_ID); (Op_Stow, IDLE_ID); (Op_Unstow, IDLE_ID);
      (Op_TakePicture, IDLE_ID) ].

(** ** Joints *)

Inductive Joint :=
| shoulder_yaw | shoulder_pitch | proximal_pitch | distal_pitch
| hand_yaw | scoop_yaw | antenna_pan | antenna_tilt | grinder.

#[global] Instance Joint_eq_dec : EqDecision Joint.
Proof. solve_decision. Defined.

Definition Joint_index (j : Joint) : nat :=
  match j with
  | shoulder_yaw => 0 | shoulder_pitch => 1 | proximal_pitch => 2
  | distal_pitch => 3 | hand_yaw => 4 | scoop_yaw => 5
  | antenna_pan => 6 | antenna_tilt => 7 | grinder => 8
  end%nat.

Definition Joint_of_index (n : nat) : option Joint :=
  match n with
  | 0 => Some shoulder_yaw | 1 => Some shoulder_pitch
  | 2 => Some proximal_pitch | 3 => Some distal_pitch
  | 4 => Some hand_yaw | 5 => Some scoop_yaw | 6 => Some antenna_pan
  | 7 => Some antenna_tilt | 8 => Some grinder | _ => None
  end%nat.

#[global] Program Instance Joint_countable : Countable Joint :=
  inj_countable Joint_index Joint_of_index _.
Next Obligation. by intros []. Qed.

(* joint_support.h: the two names of a joint and its torque limits. *)
Record JointProperties := {
  rosName : string;
  plexilName : string;
  softTorqueLimit : float;
  hardTorqueLimit : float
}.

Record JointTelemetry := {
  position : float;
  velocity : float;
  effort : float
}.

(* ROS JointStates message name -> type *)
Definition JointMap : gmap string Joint :=
  list_to_map
    [ ("j_shou_yaw", shoulder_yaw); ("j_shou_pitch", shoulder_pitch);
      ("j_prox_pitch", proximal_pitch); ("j_dist_pitch", distal_pitch);
      ("j_hand_yaw", hand_yaw); ("j_scoop_yaw", scoop_yaw);
      ("j_ant_pan", antenna_pan); ("j_ant_tilt", antenna_tilt);
      ("j_grinder", grinder) ].

Definition JointPropMap (joint : Joint) : JointProperties :=
  match joint with
  | shoulder_yaw   => Build_JointProperties "j_shou_yaw" "ShoulderYaw" 60 80
  | shoulder_pitch => Build_JointProperties "j_shou_pitch" "ShoulderPitch" 60 80
  | proximal_pitch => Build_JointProperties "j_prox_pitch" "ProximalPitch" 60 80
  | distal_pitch   => Build_JointProperties "j_dist_pitch" "DistalPitch" 60 80
  | hand_yaw       => Build_JointProperties "j_hand_yaw" "HandYaw" 60 80
  | scoop_yaw      => Build_JointProperties "j_scoop_yaw" "ScoopYaw" 60 80
  | antenna_pan    => Build_JointProperties "j_ant_pan" "AntennaPan" 30 30
  | antenna_tilt   => Build_JointProperties "j_ant_tilt" "AntennaTilt" 30 30
  | grinder        => Build_JointProperties "j_grinder" "Grinder" 30 30
  end.

(* sensor_msgs::JointState, the four parallel arrays. *)
Record JointState := {
  js_name : list string;
  js_position : list float;
  js_velocity : list float;
  js_effort : list float
}.

(** ** What the code sends out *)

(* The goal messages of ow_lander, with the fields the code fills in. *)
Inductive Goal :=
| DeliverGoal (x y z : float)
| DigLinearGoal (x_start y_start depth length ground_position : float)
| DigCircularGoal (x_start y_start depth ground_position : float)
    (parallel : bool)
| UnstowGoal (goal : Z)
| StowGoal (goal : Z)
| GrindGoal (x_start y_start depth length : float) (parallel : bool)
    (ground_position : float)
| GuardedMoveGoal (start_x start_y start_z : float)
    (normal_x normal_y normal_z : float) (search_distance : float).

Inductive LogLevel := INFO | WARN | ERROR.

(* One constructor per format string of the file, with its arguments. *)
Inductive LogMsg :=
| AlreadyRunning (name : string)
| WasNotRunning (name : string)
| FaultAsserted (fault_component key : string)
| FaultResolved (fault_component key : string)
| UnsupportedJoint (ros_name : string)
| TimedOut (opname : string)
| Failed (opname : string) (current goal : float)
| GuardedMoveFinished (state : string)
| Started (opname : string)
| Finished (opname state : string)
| Starting (opname : string) (degrees radians : float)
| CapturingImage
| ActionClientNull (opname : string)
| GuardedMoveClientNull
| ActionTimeOut (opname : string)
| GuardedMoveTimeOut
| UnsupportedOperation (name : string).

Inductive Publisher :=
| m_antennaTiltPublisher | m_antennaPanPublisher
| m_leftImageTriggerPublisher.

Inductive ThreadOp := thread_start | thread_detach | thread_join.

Inductive Event :=
| ROS_LOG (level : LogLevel) (msg : LogMsg)
| PublishOp (state_name : string) (val : bool) (opname : string)
| PublishReal (state_name : string) (val : float)
| PublishBool (state_name : string) (val : bool)
| CommandStatus (id : Z) (success : bool)
| TopicPublish (pub : Publisher) (data : option float)
| SendGoal (opname : string) (goal : Goal)
| FaultThread (what : ThreadOp) (opname : string).

Definition is_log (e : Event) : bool :=
  match e with ROS_LOG _ _ => true | _ => false end.

Definition is_command_status (e : Event) : bool :=
  match e with CommandStatus _ _ => true | _ => false end.

(** ** The state *)

Record AntennaState := {
  m_currentPan : float;
  m_currentTilt : float;
  m_goalPan : float;
  m_goalTilt : float;
  m_panStart : Time;
  m_tiltStart : Time
}.

(* Per fault domain: fault name -> (bit value, currently asserted). *)
Record FaultMaps : Type := {
  systemErrors : gmap string (Z * bool);
  armErrors : gmap string (Z * bool);
  powerErrors : gmap string (Z * bool);
  ptErrors : gmap string (Z * bool)
}.

(* The action clients; [true] is a non-null [unique_ptr]. *)
Record ActionClients := {
  m_guardedMoveClient : bool;
  m_unstowClient : bool;
  m_stowClient : bool;
  m_grindClient : bool;
  m_digCircularClient : bool;
  m_digLinearClient : bool;
  m_deliverClient : bool
}.

(* The publishers, raw pointers in the source; [true] is a pointer
   that initialize() has set. *)
Record PublisherPtrs := {
  tilt_ptr : bool;
  pan_ptr : bool;
  image_ptr : bool
}.

Definition publisher_set (pub : Publisher) (p : PublisherPtrs) : bool :=
  match pub with
  | m_antennaTiltPublisher => tilt_ptr p
  | m_antennaPanPublisher => pan_ptr p
  | m_leftImageTriggerPublisher => image_ptr p
  end.

(* A detached action thread: not yet scheduled, blocked in
   [waitForResult], or past the assignment that set its entry idle
   with its notifications still to come. *)
Inductive ThreadPhase := Spawned | Waiting | Finishing.

Record ActionThread := {
  th_op : LanderOps;
  th_goal : Goal;
  th_id : Z;
  th_phase : ThreadPhase
}.

Record World : Type := {
  Running : gmap string Z;
  JointsAtHardTorqueLimit : gset string;
  JointsAtSoftTorqueLimit : gset string;
  JointTelemetryMap : gmap Joint JointTelemetry;
  antenna : AntennaState;
  faults : FaultMaps;
  GroundFound : bool;
  GroundPosition : float;
  clients : ActionClients;
  publishers : PublisherPtrs;
  threads : list ActionThread;
  clock : Time;
  trace : list Event
}.

Definition set_Running (f : gmap string Z → gmap string Z) (w : World) :=
  {| Running := f (Running w);
     JointsAtHardTorqueLimit := JointsAtHardTorqueLimit w;
     JointsAtSoftTorqueLimit := JointsAtSoftTorqueLimit w;
     JointTelemetryMap := JointTelemetryMap w; antenna := antenna w;
     faults := faults w; GroundFound := GroundFound w;
     GroundPosition := GroundPosition w; clients := clients w;
     publishers := publishers w;
     threads := threads w; clock := clock w; trace := trace w |}.

Definition set_hard (f : gset string → gset string) (w : World) :=
  {| Running := Running w;
     JointsAtHardTorqueLimit := f (JointsAtHardTorqueLimit w);
     JointsAtSoftTorqueLimit := JointsAtSoftTorqueLimit w;
     JointTelemetryMap := JointTelemetryMap w; antenna := antenna w;
     faults := faults w; GroundFound := GroundFound w;
     GroundPosition := GroundPosition w; clients := clients w;
     publishers := publishers w;
     threads := threads w; clock := clock w; trace := trace w |}.

Definition set_soft (f : gset string → gset string) (w : World) :=
  {| Running := Running w;
     JointsAtHardTorqueLimit := JointsAtHardTorqueLimit w;
     JointsAtSoftTorqueLimit := f (JointsAtSoftTorqueLimit w);
     JointTelemetryMap := JointTelemetryMap w; antenna := antenna w;
     faults := faults w; GroundFound := GroundFound w;
     GroundPosition := GroundPosition w; clients := clients w;
     publishers := publishers w;
     threads := threads w; clock := clock w; trace := trace w |}.

Definition set_telemetry
    (f : gmap Joint JointTelemetry → gmap Joint JointTelemetry)
    (w : World) :=
  {| Running := Running w;
     JointsAtHardTorqueLimit := JointsAtHardTorqueLimit w;
     JointsAtSoftTorqueLimit := JointsAtSoftTorqueLimit w;
     JointTelemetryMap := f (JointTelemetryMap w); antenna := antenna w;
     faults := faults w; GroundFound := GroundFound w;
     GroundPosition := GroundPosition w; clients := clients w;
     publishers := publishers w;
     threads := threads w; clock := clock w; trace := trace w |}.

Definition set_antenna (f : AntennaState → AntennaState) (w : World) :=
  {| Running := Running w;
     JointsAtHardTorqueLimit := JointsAtHardTorqueLimit w;
     JointsAtSoftTorqueLimit := JointsAtSoftTorqueLimit w;
     JointTelemetryMap := JointTelemetryMap w; antenna := f (antenna w);
     faults := faults w; GroundFound := GroundFound w;
     GroundPosition := GroundPosition w; clients := clients w;
     publishers := publishers w;
     threads := threads w; clock := clock w; trace := trace w |}.

Definition set_faults (f : FaultMaps → FaultMaps) (w : World) :=
  {| Running := Running w;
     JointsAtHardTorqueLimit := JointsAtHardTorqueLimit w;
     JointsAtSoftTorqueLimit := JointsAtSoftTorqueLimit w;
     JointTelemetryMap := JointTelemetryMap w; antenna := antenna w;
     faults := f (faults w); GroundFound := GroundFound w;
     GroundPosition := GroundPosition w; clients := clients w;
     publishers := publishers w;
     threads := threads w; clock := clock w; trace := trace w |}.

Definition set_ground (found : bool) (pos : float) (w : World) :=
  {| Running := Running w;
     JointsAtHardTorqueLimit := JointsAtHardTorqueLimit w;
     JointsAtSoftTorqueLimit := JointsAtSoftTorqueLimit w;
     JointTelemetryMap := JointTelemetryMap w; antenna := antenna w;
     faults := faults w; GroundFound := found;
     GroundPosition := pos; clients := clients w;
     publishers := publishers w;
     threads := threads w; clock := clock w; trace := trace w |}.

Definition set_threads
    (f : list ActionThread → list ActionThread) (w : World) :=
  {| Running := Running w;
     JointsAtHardTorqueLimit := JointsAtHardTorqueLimit w;
     JointsAtSoftTorqueLimit := JointsAtSoftTorqueLimit w;
     JointTelemetryMap := JointTelemetryMap w; antenna := antenna w;
     faults := faults w; GroundFound := GroundFound w;
     GroundPosition := GroundPosition w; clients := clients w;
     publishers := publishers w;
     threads := f (threads w); clock := clock w; trace := trace w |}.

Definition set_clock (t : Time) (w : World) :=
  {| Running := Running w;
     JointsAtHardTorqueLimit := JointsAtHardTorqueLimit w;
     JointsAtSoftTorqueLimit := JointsAtSoftTorqueLimit w;
     JointTelemetryMap := JointTelemetryMap w; antenna := antenna w;
     faults := faults w; GroundFound := GroundFound w;
     GroundPosition := GroundPosition w; clients := clients w;
     publishers := publishers w;
     threads := threads w; clock := t; trace := trace w |}.

Definition emit (es : list Event) (w : World) :=
  {| Running := Running w;
     JointsAtHardTorqueLimit := JointsAtHardTorqueLimit w;
     JointsAtSoftTorqueLimit := JointsAtSoftTorqueLimit w;
     JointTelemetryMap := JointTelemetryMap w; antenna := antenna w;
     faults := faults w; GroundFound := GroundFound w;
     GroundPosition := GroundPosition w; clients := clients w;
     publishers := publishers w;
     threads := threads w; clock := clock w; trace := trace w ++ es |}.

(** ** Computations over the state *)

Inductive Failure :=
| out_of_range (key : string)      (* std::map::at on a missing key *)
| index_past_end (i : nat)         (* operator[] past a vector's end *)
| null_dereference (pub : Publisher) (* -> on a null publisher *)
| std_terminate (final : World).   (* the process aborted, in this state *)

Inductive Result (A : Type) : Type :=
| Ok (a : A) (w : World)
| Throw (e : Failure).
Arguments Ok {A} a w.
Arguments Throw {A} e.

Definition M (A : Type) : Type := World → Result A.

#[global] Instance M_ret : MRet M := λ A a w, Ok a w.
#[global] Instance M_bind : MBind M := λ A B f m w,
  match m w with
  | Ok a w' => f a w'
  | Throw e => Throw e
  end.

Definition throw {A} (e : Failure) : M A := λ _, Throw e.
(* ~thread() on a joinable thread calls std::terminate. *)
Definition terminate {A} : M A := λ w, Throw (std_terminate w).
Definition get {A} (proj : World → A) : M A := λ w, Ok (proj w) w.
Definition modify (f : World → World) : M unit := λ w, Ok tt (f w).
Definition skip : M unit := mret tt.
(* if (c) m; *)
Definition when (c : bool) (m : M unit) : M unit := if c then m else skip.

Definition world_of {A} (r : Result A) : option World :=
  match r with Ok _ w => Some w | Throw _ => None end.

(* The events a run from [w] added to the trace. *)
Definition emitted (w w' : World) : list Event :=
  drop (length (trace w)) (trace w').

Definition ROS_INFO (msg : LogMsg) : M unit := modify (emit [ROS_LOG INFO msg]).
Definition ROS_WARN (msg : LogMsg) : M unit := modify (emit [ROS_LOG WARN msg]).
Definition ROS_ERROR (msg : LogMsg) : M unit := modify (emit [ROS_LOG ERROR msg]).

(* subscriber.h: publish (state, value) and publish (state, value, arg). *)
Definition publish_op (state_name : string) (val : bool) (opname : string)
  : M unit := modify (emit [PublishOp state_name val opname]).
Definition publish_real (state_name : string) (val : float) : M unit :=
  modify (emit [PublishReal state_name val]).
Definition publish_bool (state_name : string) (val : bool) : M unit :=
  modify (emit [PublishBool state_name val]).

(* The callback registered with setCommandStatusCallback. *)
Definition CommandStatusCallback (id : Z) (success : bool) : M unit :=
  modify (emit [CommandStatus id success]).

Definition ros_Time_now : M Time := get clock.

(* Running.at (name) read, and Running.at (name) = id. *)
Definition Running_at (name : string) : M Z := λ w,
  match Running w !! name with
  | Some id => Ok id w
  | None => Throw (out_of_range name)
  end.

Definition Running_assign (name : string) (id : Z) : M unit := λ w,
  match Running w !! name with
  | Some _ => Ok tt (set_Running <[name := id]> w)
  | None => Throw (out_of_range name)
  end.

(* vec[i] *)
Definition vec_at {A} (vec : list A) (i : nat) : M A := λ w,
  match vec !! i with
  | Some x => Ok x w
  | None => Throw (index_past_end i)
  end.

(** ** Lander operation support *)

Definition is_lander_operation (name : string) : M bool :=
  get (λ w, bool_decide (is_Some (Running w !! name))).

Definition mark_operation_running (name : string) (id : Z) : M bool :=
  r ← Running_at name;
  if negb (r =? IDLE_ID) then
    ROS_WARN (AlreadyRunning name);;
    mret false
  else
    Running_assign name id;;
    publish_op "Running" true name;;
    mret true.

(* C's [!] on an int: 1 for zero, 0 otherwise. *)
Definition lnot (x : Z) : Z := if x =? 0 then 1 else 0.

Definition mark_operation_finished (name : string) (id : Z) : M unit :=
  r ← Running_at name;
  (* ! Running.at (name) == IDLE_ID parses (! Running.at (name)) == IDLE_ID *)
  when (lnot r =? IDLE_ID) (ROS_WARN (WasNotRunning name));;
  Running_assign name IDLE_ID;;
  publish_op "Running" false name;;
  publish_op "Finished" true name;;
  when (negb (id =? IDLE_ID)) (CommandStatusCallback id true).

(* mark_operation_finished up to the assignment of line 123 ... *)
Definition mark_operation_finished_reset (name : string) : M unit :=
  r ← Running_at name;
  when (lnot r =? IDLE_ID) (ROS_WARN (WasNotRunning name));;
  Running_assign name IDLE_ID.

(* ... and from there on: the two notifications and the callback. *)
Definition mark_operation_finished_notify (name : string) (id : Z) : M unit :=
  publish_op "Running" false name;;
  publish_op "Finished" true name;;
  when (negb (id =? IDLE_ID)) (CommandStatusCallback id true).

Definition operationRunning (name : string) : M bool :=
  r ← Running_at name;
  mret (negb (r =? IDLE_ID)).

Definition running (name : string) : M bool :=
  known ← is_lander_operation name;
  if (known : bool) then operationRunning name
  else
    ROS_ERROR (UnsupportedOperation name);;
    mret false.

(* Fault monitoring per operation is an empty thread body. *)
Definition monitor_for_faults (opname : string) : M unit := skip.

(** ** Joint/torque support *)

(* a >= b on doubles *)
Definition fge (a b : float) : bool := PrimFloat.leb b a.

Definition handle_overtorque (joint : Joint) (effort : float) : M unit :=
  let joint_name := plexilName (JointPropMap joint) in
  if fge (fabs effort) (hardTorqueLimit (JointPropMap joint)) then
    modify (set_hard (λ s, s ∪ {[joint_name]}))
  else if fge (fabs effort) (softTorqueLimit (JointPropMap joint)) then
    modify (set_soft (λ s, s ∪ {[joint_name]}))
  else
    modify (set_hard (λ s, s ∖ {[joint_name]}));;
    modify (set_soft (λ s, s ∖ {[joint_name]})).

Definition handle_joint_fault (joint : Joint) (joint_index : nat)
    (msg : JointState) : M unit :=
  e ← vec_at (js_effort msg) joint_index;
  handle_overtorque joint e.

Definition hardTorqueLimitReached (joint_name : string) : M bool :=
  get (λ w, bool_decide (joint_name ∈ JointsAtHardTorqueLimit w)).

Definition softTorqueLimitReached (joint_name : string) : M bool :=
  get (λ w, bool_decide (joint_name ∈ JointsAtSoftTorqueLimit w)).

(** ** Fault support *)

Inductive FaultDomain := SYSTEM | ARM | POWER | ANTENNA.

#[global] Instance FaultDomain_eq_dec : EqDecision FaultDomain.
Proof. solve_decision. Defined.

(* The tag each callback passes to checkFaultMessages. *)
Definition fault_component (d : FaultDomain) : string :=
  match d with
  | SYSTEM => "SYSTEM" | ARM => "ARM" | POWER => "POWER"
  | ANTENNA => "ANTENNA"
  end.

(* The member each callback walks: systemErrors, armErrors,
   powerErrors, ptErrors. *)
Definition errors_of (d : FaultDomain) (f : FaultMaps)
  : gmap string (Z * bool) :=
  match d with
  | SYSTEM => systemErrors f | ARM => armErrors f
  | POWER => powerErrors f | ANTENNA => ptErrors f
  end.

Definition set_errors_of (d : FaultDomain)
    (g : gmap string (Z * bool) → gmap string (Z * bool)) (f : FaultMaps)
  : FaultMaps :=
  match d with
  | SYSTEM => {| systemErrors := g (systemErrors f); armErrors := armErrors f;
                 powerErrors := powerErrors f; ptErrors := ptErrors f |}
  | ARM => {| systemErrors := systemErrors f; armErrors := g (armErrors f);
              powerErrors := powerErrors f; ptErrors := ptErrors f |}
  | POWER => {| systemErrors := systemErrors f; armErrors := armErrors f;
                powerErrors := g (powerErrors f); ptErrors := ptErrors f |}
  | ANTENNA => {| systemErrors := systemErrors f; armErrors := armErrors f;
                  powerErrors := powerErrors f; ptErrors := g (ptErrors f) |}
  end.

(* (msg_val & value) == value *)
Definition bit_test (msg_val value : Z) : bool :=
  Z.land msg_val value =? value.

Definition checkFaultMessages (fault_component : string) (msg_val : Z)
    (key : string) (value : Z) (b : bool) : M bool :=
  if negb b && bit_test msg_val value then
    ROS_ERROR (FaultAsserted fault_component key);;
    mret true
  else if b && negb (bit_test msg_val value) then
    ROS_INFO (FaultResolved fault_component key);;
    mret true
  else mret false.

(* A std::map is walked in the order of its keys. *)
Definition key_le {V} (a b : string * V) : Prop :=
  Stdlib.Strings.String.leb a.1 b.1 = true.

#[global] Instance key_le_dec {V} : RelDecision (@key_le V).
Proof. intros a b. unfold key_le. apply _. Defined.

Definition in_key_order {V} (m : gmap string V) : list (string * V) :=
  merge_sort key_le (map_to_list m).

Fixpoint for_each {A} (l : list A) (body : A → M unit) : M unit :=
  match l with
  | [] => skip
  | x :: rest => body x;; for_each rest body
  end.

(* errors[key].second = !errors[key].second *)
Definition toggle (entry : Z * bool) : Z * bool := (entry.1, negb entry.2).

(* One turn of the loop the four fault callbacks share; the words are
   uint64_t in the system domain and uint32_t in the others, taken
   here at their values. *)
Definition faultCallback_body (d : FaultDomain) (msg_val : Z)
    (entry : string * (Z * bool)) : M unit :=
  let key := entry.1 in
  let value := entry.2.1 in
  let b := entry.2.2 in
  flipped ← checkFaultMessages (fault_component d) msg_val key value b;
  when flipped (modify (set_faults (set_errors_of d (alter toggle key)))).

(* The loop itself.  An entry is read when the loop reaches it and the
   assignment only touches the entry at hand, so the entries walked
   are those of the map as the callback found it. *)
Definition faultCallback (d : FaultDomain) (msg_value : Z) : M unit :=
  let msg_val := msg_value in
  entries ← get (λ w, in_key_order (errors_of d (faults w)));
  for_each entries (faultCallback_body d msg_val).

Definition systemFaultMessageCallback := faultCallback SYSTEM.
Definition armFaultCallback := faultCallback ARM.
Definition powerFaultCallback := faultCallback POWER.
Definition antennaFaultCallback := faultCallback ANTENNA.

(** ** Pan/tilt completion and the joint-state callback *)

Definition managePanTilt (opname : string) (position velocity : float)
    (current goal : float) (start : Time) : M unit :=
  (* We are only concerned when there is a pan/tilt in progress. *)
  in_progress ← operationRunning opname;
  if negb in_progress then skip else
  id ← Running_at opname;
  let reached := within_tolerance current goal DegreeTolerance in
  now ← ros_Time_now;
  let expired := now >? start + Duration PanTiltTimeout in
  if reached || expired then
    mark_operation_finished opname id;;
    when expired (ROS_ERROR (TimedOut opname));;
    when (negb reached) (ROS_ERROR (Failed opname current goal))
  else skip.

Fixpoint for_range (i count : nat) (body : nat → M unit) : M unit :=
  match count with
  | O => skip
  | S count' => body i;; for_range (S i) count' body
  end.

(* One turn of the loop of jointStatesCallback. *)
Definition jointStatesCallback_body (msg : JointState) (i : nat) : M unit :=
  ros_name ← vec_at (js_name msg) i;
  match JointMap !! ros_name with
  | Some joint =>
      position ← vec_at (js_position msg) i;
      velocity ← vec_at (js_velocity msg) i;
      effort ← vec_at (js_effort msg) i;
      a ← get antenna;
      (if decide (joint = antenna_pan) then
         managePanTilt Op_PanAntenna position velocity
           (m_currentPan a) (m_goalPan a) (m_panStart a)
       else if decide (joint = antenna_tilt) then
         managePanTilt Op_TiltAntenna position velocity
           (m_currentTilt a) (m_goalTilt a) (m_tiltStart a)
       else skip);;
      modify (set_telemetry
                <[joint := Build_JointTelemetry position velocity effort]>);;
      let plexil_name := plexilName (JointPropMap joint) in
      publish_real (plexil_name +:+ "Position") position;;
      publish_real (plexil_name +:+ "Velocity") velocity;;
      publish_real (plexil_name +:+ "Effort") effort;;
      handle_joint_fault joint i msg
  | None => ROS_ERROR (UnsupportedJoint ros_name)
  end.

(* for (int i = 0; i < JointMap.size(); i++) *)
Definition jointStatesCallback (msg : JointState) : M unit :=
  for_range 0 (size JointMap) (jointStatesCallback_body msg).

(** ** Antenna/camera support *)

Definition panCallback (set_point : float) : M unit :=
  let current := PrimFloat.mul set_point R2D in
  modify (set_antenna (λ a,
    {| m_currentPan := current; m_currentTilt := m_currentTilt a;
       m_goalPan := m_goalPan a; m_goalTilt := m_goalTilt a;
       m_panStart := m_panStart a; m_tiltStart := m_tiltStart a |}));;
  publish_real "PanDegrees" current.

Definition tiltCallback (set_point : float) : M unit :=
  let current := PrimFloat.mul set_point R2D in
  modify (set_antenna (λ a,
    {| m_currentPan := m_currentPan a; m_currentTilt := current;
       m_goalPan := m_goalPan a; m_goalTilt := m_goalTilt a;
       m_panStart := m_panStart a; m_tiltStart := m_tiltStart a |}));;
  publish_real "TiltDegrees" current.

Definition cameraCallback : M unit :=
  (* NOTE: the received image is ignored for now. *)
  in_progress ← operationRunning Op_TakePicture;
  if (in_progress : bool) then
    id ← Running_at Op_TakePicture;
    mark_operation_finished Op_TakePicture id
  else skip.

(* pub->publish (msg) *)
Definition publish_on (pub : Publisher) (data : option float) : M unit :=
  created ← get (λ w, publisher_set pub (publishers w));
  if (created : bool) then modify (emit [TopicPublish pub data])
  else throw (null_dereference pub).

Definition antenna_op (opname : string) (degrees : float) (pub : Publisher)
    (id : Z) : M unit :=
  accepted ← mark_operation_running opname id;
  if negb accepted then skip else
  let radians := PrimFloat.mul degrees D2R in
  ROS_INFO (Starting opname degrees radians);;
  modify (emit [FaultThread thread_start opname]);;
  modify (emit [FaultThread thread_detach opname]);;
  publish_on pub (Some radians).

Definition tiltAntenna (degrees : float) (id : Z) : M unit :=
  now ← ros_Time_now;
  modify (set_antenna (λ a,
    {| m_currentPan := m_currentPan a; m_currentTilt := m_currentTilt a;
       m_goalPan := m_goalPan a; m_goalTilt := degrees;
       m_panStart := m_panStart a; m_tiltStart := now |}));;
  antenna_op Op_TiltAntenna degrees m_antennaTiltPublisher id.

Definition panAntenna (degrees : float) (id : Z) : M unit :=
  now ← ros_Time_now;
  modify (set_antenna (λ a,
    {| m_currentPan := m_currentPan a; m_currentTilt := m_currentTilt a;
       m_goalPan := degrees; m_goalTilt := m_goalTilt a;
       m_panStart := now; m_tiltStart := m_tiltStart a |}));;
  antenna_op Op_PanAntenna degrees m_antennaPanPublisher id.

Definition takePicture (id : Z) : M unit :=
  accepted ← mark_operation_running Op_TakePicture id;
  if negb accepted then skip else
  ROS_INFO CapturingImage;;
  modify (emit [FaultThread thread_start Op_TakePicture]);;
  modify (emit [FaultThread thread_detach Op_TakePicture]);;
  publish_on m_leftImageTriggerPublisher None.

(** ** GuardedMove and general action support *)

(* seconds; only the outcome of the bounded wait enters the model *)
Definition ActionTimeoutSecs : Z := 180.
Definition ActionServerTimeout : Z := 10.

Definition guarded_move_done_cb (state : string) (success : bool)
    (final_z : float) : M unit :=
  ROS_INFO (GuardedMoveFinished state);;
  modify (set_ground success final_z);;
  found ← get GroundFound;
  pos ← get GroundPosition;
  publish_bool "GroundFound" found;;
  publish_real "GroundPosition" pos.

Definition action_feedback_cb : M unit := skip.

Definition active_cb (op : LanderOps) : M unit :=
  ROS_INFO (Started (LanderOpName op)).

Definition action_done_cb (op : LanderOps) (state : string) : M unit :=
  ROS_INFO (Finished (LanderOpName op) state).

(* Starting a detached action thread: it joins the pool, to be
   scheduled later.  The record keeps the goal its Action function
   fills in from the arguments. *)
Definition spawn_action_thread (op : LanderOps) (goal : Goal) (id : Z)
  : M unit :=
  modify (set_threads (λ pool,
    pool ++ [ {| th_op := op; th_goal := goal; th_id := id;
                 th_phase := Spawned |} ])).

(* runAction up to its blocking call.  With no client it logs the
   error and returns; that return destroys fault_thread, which was
   neither joined nor detached, and the process is terminated. *)
Definition runAction_send (opname : string) (ac : bool) (goal : Goal)
    (id : Z) : M unit :=
  modify (emit [FaultThread thread_start opname]);;
  if ac then
    modify (emit [SendGoal opname goal])
  else
    ROS_ERROR (ActionClientNull opname);;
    terminate.

(* runAction from the return of waitForResult on. *)
Definition runAction_finish (opname : string) (id : Z)
    (finished_before_timeout : bool) : M unit :=
  when (negb finished_before_timeout) (ROS_WARN (ActionTimeOut opname));;
  mark_operation_finished opname id;;
  modify (emit [FaultThread thread_join opname]).

(* The same in two stretches, cut after the entry is set idle. *)
Definition runAction_reset (opname : string)
    (finished_before_timeout : bool) : M unit :=
  when (negb finished_before_timeout) (ROS_WARN (ActionTimeOut opname));;
  mark_operation_finished_reset opname.

Definition runAction_notify (opname : string) (id : Z) : M unit :=
  mark_operation_finished_notify opname id;;
  modify (emit [FaultThread thread_join opname]).

(* The whole of runAction, given what the wait returns. *)
Definition runAction (opname : string) (ac : bool) (goal : Goal) (id : Z)
    (finished_before_timeout : bool) : M unit :=
  runAction_send opname ac goal id;;
  runAction_finish opname id finished_before_timeout.

Definition deliver (x y z : float) (id : Z) : M unit :=
  accepted ← mark_operation_running Op_Deliver id;
  if negb accepted then skip else
  spawn_action_thread Deliver (DeliverGoal x y z) id.

Definition digLinear (x y depth length ground_pos : float) (id : Z)
  : M unit :=
  accepted ← mark_operation_running Op_DigLinear id;
  if negb accepted then skip else
  spawn_action_thread DigLinear (DigLinearGoal x y depth length ground_pos) id.

Definition digCircular (x y depth ground_pos : float) (parallel : bool)
    (id : Z) : M unit :=
  accepted ← mark_operation_running Op_DigCircular id;
  if negb accepted then skip else
  spawn_action_thread DigCircular
    (DigCircularGoal x y depth ground_pos parallel) id.

Definition unstow (id : Z) : M unit :=
  accepted ← mark_operation_running Op_Unstow id;
  if negb accepted then skip else
  spawn_action_thread Unstow (UnstowGoal 0) id.

Definition stow (id : Z) : M unit :=
  accepted ← mark_operation_running Op_Stow id;
  if negb accepted then skip else
  spawn_action_thread Stow (StowGoal 0) id.

Definition grind (x y depth length : float) (parallel : bool)
    (ground_pos : float) (id : Z) : M unit :=
  accepted ← mark_operation_running Op_Grind id;
  if negb accepted then skip else
  spawn_action_thread Grind
    (GrindGoal x y depth length parallel ground_pos) id.

Definition guardedMove (x y z dir_x dir_y dir_z search_dist : float)
    (id : Z) : M unit :=
  accepted ← mark_operation_running Op_GuardedMove id;
  if negb accepted then skip else
  spawn_action_thread GuardedMove
    (GuardedMoveGoal x y z dir_x dir_y dir_z search_dist) id.

(* guardedMoveAction does not go through runAction; it has the same
   return with fault_thread still joinable. *)
Definition guardedMoveAction_send (goal : Goal) (id : Z) : M unit :=
  modify (emit [FaultThread thread_start Op_GuardedMove]);;
  ac ← get (λ w, m_guardedMoveClient (clients w));
  if (ac : bool) then
    modify (emit [SendGoal Op_GuardedMove goal])
  else
    ROS_ERROR GuardedMoveClientNull;;
    terminate.

Definition guardedMoveAction_finish (id : Z)
    (finished_before_timeout : bool) : M unit :=
  when (negb finished_before_timeout) (ROS_WARN GuardedMoveTimeOut);;
  mark_operation_finished Op_GuardedMove id;;
  modify (emit [FaultThread thread_join Op_GuardedMove]).

Definition guardedMoveAction_reset (finished_before_timeout : bool)
  : M unit :=
  when (negb finished_before_timeout) (ROS_WARN GuardedMoveTimeOut);;
  mark_operation_finished_reset Op_GuardedMove.

Definition guardedMoveAction_notify (id : Z) : M unit :=
  mark_operation_finished_notify Op_GuardedMove id;;
  modify (emit [FaultThread thread_join Op_GuardedMove]).

(* The client each Action function hands to runAction; the antenna
   and camera operations have none. *)
Definition client_of (op : LanderOps) (c : ActionClients) : option bool :=
  match op with
  | GuardedMove => Some (m_guardedMoveClient c)
  | DigCircular => Some (m_digCircularClient c)
  | DigLinear => Some (m_digLinearClient c)
  | Deliver => Some (m_deliverClient c)
  | Grind => Some (m_grindClient c)
  | Stow => Some (m_stowClient c)
  | Unstow => Some (m_unstowClient c)
  | Pan | Tilt | TakePicture => None
  end.

(* The Action function of a thread, up to the wait. *)
Definition action_send (t : ActionThread) : M unit :=
  match th_op t with
  | GuardedMove => guardedMoveAction_send (th_goal t) (th_id t)
  | op =>
      ac ← get (λ w, default false (client_of op (clients w)));
      runAction_send (LanderOpName op) ac (th_goal t) (th_id t)
  end.

(* The Action function of a thread, from the return of the wait to
   the assignment that sets its entry idle. *)
Definition action_reset (t : ActionThread) (finished_before_timeout : bool)
  : M unit :=
  match th_op t with
  | GuardedMove => guardedMoveAction_reset finished_before_timeout
  | op => runAction_reset (LanderOpName op) finished_before_timeout
  end.

(* The Action function of a thread, from there to its end. *)
Definition action_notify (t : ActionThread) : M unit :=
  match th_op t with
  | GuardedMove => guardedMoveAction_notify (th_id t)
  | op => runAction_notify (LanderOpName op) (th_id t)
  end.

(** ** The interface at work

    What can happen to the interface, one step each: a command of the
    plan executive, a message on a subscribed topic, a callback of an
    action server, time passing, and the three stretches of an action
    thread: from its start to its wait, from the return of the wait to
    the assignment that sets its entry idle, and from there to its
    end.  A run stops at the first failure. *)
Inductive Step :=
| do_guardedMove (x y z dir_x dir_y dir_z search_dist : float) (id : Z)
| do_tiltAntenna (degrees : float) (id : Z)
| do_panAntenna (degrees : float) (id : Z)
| do_takePicture (id : Z)
| do_digLinear (x y depth length ground_pos : float) (id : Z)
| do_digCircular (x y depth ground_pos : float) (parallel : bool) (id : Z)
| do_grind (x y depth length : float) (parallel : bool) (ground_pos : float)
    (id : Z)
| do_stow (id : Z)
| do_unstow (id : Z)
| do_deliver (x y z : float) (id : Z)
| on_jointStates (msg : JointState)
| on_pan (set_point : float)
| on_tilt (set_point : float)
| on_camera
| on_fault (d : FaultDomain) (msg_value : Z)
| on_active (op : LanderOps)
| on_done (op : LanderOps) (state : string)
| on_guarded_move_done (state : string) (success : bool) (final_z : float)
| thread_begins (n : nat)
| thread_returns (n : nat) (finished_before_timeout : bool)
| thread_ends (n : nat)
| time_passes (now : Time).

Definition in_phase (phase : ThreadPhase) (t : ActionThread) : ActionThread :=
  {| th_op := th_op t; th_goal := th_goal t; th_id := th_id t;
     th_phase := phase |}.

(* The n-th thread of the pool runs from its start to waitForResult. *)
Definition schedule (n : nat) : M unit :=
  pool ← get threads;
  match pool !! n with
  | Some t =>
      match th_phase t with
      | Spawned =>
          action_send t;;
          modify (set_threads <[n := in_phase Waiting t]>)
      | _ => skip
      end
  | None => skip
  end.

(* The n-th thread of the pool comes back from waitForResult and sets
   its entry idle. *)
Definition resume (n : nat) (finished_before_timeout : bool) : M unit :=
  pool ← get threads;
  match pool !! n with
  | Some t =>
      match th_phase t with
      | Waiting =>
          action_reset t finished_before_timeout;;
          modify (set_threads <[n := in_phase Finishing t]>)
      | _ => skip
      end
  | None => skip
  end.

(* The n-th thread of the pool sends its notifications, joins its
   fault thread and ends. *)
Definition finish (n : nat) : M unit :=
  pool ← get threads;
  match pool !! n with
  | Some t =>
      match th_phase t with
      | Finishing =>
          action_notify t;;
          modify (set_threads (delete n))
      | _ => skip
      end
  | None => skip
  end.

Definition step (s : Step) : M unit :=
  match s with
  | do_guardedMove x y z dx dy dz sd id => guardedMove x y z dx dy dz sd id
  | do_tiltAntenna degrees id => tiltAntenna degrees id
  | do_panAntenna degrees id => panAntenna degrees id
  | do_takePicture id => takePicture id
  | do_digLinear x y depth length gp id => digLinear x y depth length gp id
  | do_digCircular x y depth gp parallel id =>
      digCircular x y depth gp parallel id
  | do_grind x y depth length parallel gp id =>
      grind x y depth length parallel gp id
  | do_stow id => stow id
  | do_unstow id => unstow id
  | do_deliver x y z id => deliver x y z id
  | on_jointStates msg => jointStatesCallback msg
  | on_pan set_point => panCallback set_point
  | on_tilt set_point => tiltCallback set_point
  | on_camera => cameraCallback
  | on_fault d msg_value => faultCallback d msg_value
  | on_active op => active_cb op
  | on_done op state => action_done_cb op state
  | on_guarded_move_done state success final_z =>
      guarded_move_done_cb state success final_z
  | thread_begins n => schedule n
  | thread_returns n finished_before_timeout =>
      resume n finished_before_timeout
  | thread_ends n => finish n
  | time_passes now => modify (set_clock now)
  end.

Definition run (steps : list Step) : M unit := for_each steps step.

(* The interface as constructed, before initialize(): every operation
   idle, no publisher and no action client yet. *)
Definition World_init (f : FaultMaps) (pan_start tilt_start now : Time)
  : World :=
  {| Running := Running_init;
     JointsAtHardTorqueLimit := ∅;
     JointsAtSoftTorqueLimit := ∅;
     JointTelemetryMap := ∅;
     antenna := {| m_currentPan := 0; m_currentTilt := 0; m_goalPan := 0;
                   m_goalTilt := 0; m_panStart := pan_start;
                   m_tiltStart := tilt_start |};
     faults := f;
     GroundFound := false;
     GroundPosition := 0;
     clients := {| m_guardedMoveClient := false; m_unstowClient := false;
                   m_stowClient := false; m_grindClient := false;
                   m_digCircularClient := false; m_digLinearClient := false;
                   m_deliverClient := false |};
     publishers := {| tilt_ptr := false; pan_ptr := false;
                      image_ptr := false |};
     threads := [];
     clock := now;
     trace := [] |}.

(* initialize() creates the three publishers and the seven action
   clients. *)
Definition connect_clients (w : World) : World :=
  {| Running := Running w;
     JointsAtHardTorqueLimit := JointsAtHardTorqueLimit w;
     JointsAtSoftTorqueLimit := JointsAtSoftTorqueLimit w;
     JointTelemetryMap := JointTelemetryMap w; antenna := antenna w;
     faults := faults w; GroundFound := GroundFound w;
     GroundPosition := GroundPosition w;
     clients := {| m_guardedMoveClient := true; m_unstowClient := true;
                   m_stowClient := true; m_grindClient := true;
                   m_digCircularClient := true; m_digLinearClient := true;
                   m_deliverClient := true |};
     publishers := {| tilt_ptr := true; pan_ptr := true;
                      image_ptr := true |};
     threads := threads w; clock := clock w; trace := trace w |}.

(** ** The vocabulary of the statements *)

(* The state a successful admission leaves. *)
Definition admit_to (name : string) (id : Z) (w : World) : World :=
  emit [PublishOp "Running" true name] (set_Running <[name := id]> w).

(* The state a completion leaves. *)
Definition complete_to (name : string) (id : Z) (w : World) : World :=
  emit ([PublishOp "Running" false name; PublishOp "Finished" true name]
        ++ (if decide (id = IDLE_ID) then [] else [CommandStatus id true]))
       (set_Running <[name := IDLE_ID]> w).

(* A few fault tables to run the callbacks on; the interface's own are
   declared in a header this file does not see. *)
Definition sample_faults : FaultMaps :=
  {| systemErrors := list_to_map [("ARM_EXECUTION_ERROR", (4, false));
                                  ("POWER_EXECUTION_ERROR", (512, false));
                                  ("SYSTEM", (1, false))];
     armErrors := list_to_map [("HARDWARE_ERROR", (1, false));
                               ("TRAJECTORY_GENERATION_ERROR", (2, false))];
     powerErrors := list_to_map [("LOW_STATE_OF_CHARGE", (1, false))];
     ptErrors := list_to_map [("PAN_JOINT_LOCKED", (1, false));
                              ("TILT_JOINT_LOCKED", (2, false))] |}.

Definition w0 : World := World_init sample_faults 0 0 0.

(* Once [name] runs, no admission of it succeeds and none changes the
   registry. *)
Definition admission_closed (name : string) (w : World) : Prop :=
  ∀ id2, ∃ w2,
    mark_operation_running name id2 w = Ok false w2 ∧ Running w2 = Running w.

(* What the specification promises of an admission from an idle entry. *)
Definition admits (name : string) (id : Z) (w : World) : Prop :=
  ∃ w1, mark_operation_running name id w = Ok true w1
        ∧ Running w1 = <[name := id]> (Running w)
        ∧ emitted w w1 = [PublishOp "Running" true name]
        ∧ admission_closed name w1.

(* What the specification promises of completing an idle operation:
   an error is logged and nothing else is sent out. *)
Definition complete_on_idle_only_logs (name : string) (id : Z) (w : World)
  : Prop :=
  ∃ w', mark_operation_finished name id w = Ok tt w'
        ∧ (∃ e, e ∈ emitted w w' ∧ is_log e = true)
        ∧ Forall (λ e, is_log e = true) (emitted w w').

(* The error lines managePanTilt adds when it completes an operation. *)
Definition pan_tilt_errors (opname : string) (current goal : float)
    (reached expired : bool) : list Event :=
  (if expired then [ROS_LOG ERROR (TimedOut opname)] else [])
  ++ (if reached then [] else [ROS_LOG ERROR (Failed opname current goal)]).

(* 29.85 and 10.0 degrees against a goal of 30.0, as binary64. *)
Definition deg_29_85 : float := 0x1.dd9999999999ap+4%float.
Definition deg_10 : float := 10%float.
Definition deg_30 : float := 30%float.

(* The log line the specification asks for an entry: one when the bit
   test differs from the stored flag, none otherwise. *)
Definition fault_report (d : FaultDomain) (msg_val : Z)
    (entry : string * (Z * bool)) : list Event :=
  let test := bit_test msg_val entry.2.1 in
  if Bool.eqb test entry.2.2 then []
  else if test then [ROS_LOG ERROR (FaultAsserted (fault_component d) entry.1)]
  else [ROS_LOG INFO (FaultResolved (fault_component d) entry.1)].

(* The stored flag after a snapshot, as the specification asks. *)
Definition retest (msg_val : Z) (e : Z * bool) : Z * bool :=
  (e.1, bit_test msg_val e.1).

Definition flips (msg_val : Z) (entry : string * (Z * bool)) : bool :=
  negb (Bool.eqb (bit_test msg_val entry.2.1) entry.2.2).

Definition after_entry (d : FaultDomain) (msg_val : Z) (w : World)
    (entry : string * (Z * bool)) : World :=
  if flips msg_val entry then
    emit (fault_report d msg_val entry)
         (set_faults (set_errors_of d (alter toggle entry.1)) w)
  else w.

Definition flip_in (msg_val : Z) (m : gmap string (Z * bool))
    (entry : string * (Z * bool)) : gmap string (Z * bool) :=
  if flips msg_val entry then alter toggle entry.1 m else m.


(* [m] keeps [P]: every run of [m] that returns from a state with [P]
   ends in a state with [P]. *)
Definition keeps {A} (P : World → Prop) (m : M A) : Prop :=
  ∀ w a w', P w → m w = Ok a w' → P w'.

(* The operations that go through an action client. *)
Definition is_action (op : LanderOps) : bool :=
  match op with
  | Pan | Tilt | TakePicture => false
  | _ => true
  end.

(* The error line of a thread that finds its client null. *)
Definition client_null_error (op : LanderOps) : LogMsg :=
  match op with
  | GuardedMove => GuardedMoveClientNull
  | _ => ActionClientNull (LanderOpName op)
  end.

(* Stow admitted with id 7 before initialize(), its thread spawned. *)
Definition w_stow : World :=
  set_threads (λ pool, pool ++ [ {| th_op := Stow; th_goal := StowGoal 0;
                                    th_id := 7; th_phase := Spawned |} ])
    (admit_to Op_Stow 7 w0).


(* The nine joints of the catalogue, then the grinder once more with
   an effort above its limits. *)
Definition long_msg : JointState :=
  {| js_name := ["j_shou_yaw"; "j_shou_pitch"; "j_prox_pitch"; "j_dist_pitch";
                 "j_hand_yaw"; "j_scoop_yaw"; "j_ant_pan"; "j_ant_tilt";
                 "j_grinder"; "j_grinder"];
     js_position := [0; 0; 0; 0; 0; 0; 0; 0; 0; 0]%float;
     js_velocity := [0; 0; 0; 0; 0; 0; 0; 0; 0; 0]%float;
     js_effort := [0; 0; 0; 0; 0; 0; 0; 0; 0; 100]%float |}.

(* The operation a command step asks for. *)
Definition command_of (s : Step) : option (LanderOps * Z) :=
  match s with
  | do_guardedMove _ _ _ _ _ _ _ id => Some (GuardedMove, id)
  | do_tiltAntenna _ id => Some (Tilt, id)
  | do_panAntenna _ id => Some (Pan, id)
  | do_takePicture id => Some (TakePicture, id)
  | do_digLinear _ _ _ _ _ id => Some (DigLinear, id)
  | do_digCircular _ _ _ _ _ id => Some (DigCircular, id)
  | do_grind _ _ _ _ _ _ id => Some (Grind, id)
  | do_stow id => Some (Stow, id)
  | do_unstow id => Some (Unstow, id)
  | do_deliver _ _ _ id => Some (Deliver, id)
  | _ => None
  end.

(* The registry holds every name of the catalogue. *)
Definition has_catalogue (w : World) : Prop :=
  ∀ op, is_Some (Running w !! LanderOpName op).

(* [m] returns from every state with [P], in a state with [P]. *)
Definition returns {A} (P : World → Prop) (m : M A) : Prop :=
  ∀ w, P w → ∃ a w', m w = Ok a w' ∧ P w'.

(* initialize() has run: the publishers and the action clients are
   there. *)
Definition initialised (w : World) : Prop :=
  clients w = clients (connect_clients w)
  ∧ publishers w = publishers (connect_clients w).

(* An initialised interface with the registry of the catalogue, whose
   threads are those of action operations. *)
Definition ready (w : World) : Prop :=
  has_catalogue w ∧ initialised w
  ∧ Forall (λ t, is_action (th_op t) = true) (threads w).

(* A joint-state message with at least [n] entries in each array. *)
Definition well_sized (n : nat) (msg : JointState) : Prop :=
  (n ≤ length (js_name msg))%nat ∧ (n ≤ length (js_position msg))%nat
  ∧ (n ≤ length (js_velocity msg))%nat ∧ (n ≤ length (js_effort msg))%nat.

Definition well_sized_step (s : Step) : Prop :=
  match s with
  | on_jointStates msg => well_sized 9 msg
  | _ => True
  end.

(* The warning of a thread whose wait ran into the time-out. *)
Definition time_out_warning (op : LanderOps) : LogMsg :=
  match op with
  | GuardedMove => GuardedMoveTimeOut
  | _ => ActionTimeOut (LanderOpName op)
  end.

(* Everything an action thread sends out from its start to its end,
   when its client is there. *)
Definition action_thread_events (t : ActionThread)
    (finished_before_timeout : bool) : list Event :=
  let name := LanderOpName (th_op t) in
  [FaultThread thread_start name; SendGoal name (th_goal t)]
  ++ (if finished_before_timeout then []
      else [ROS_LOG WARN (time_out_warning (th_op t))])
  ++ [PublishOp "Running" false name; PublishOp "Finished" true name]
  ++ (if decide (th_id t = IDLE_ID) then [] else [CommandStatus (th_id t) true])
  ++ [FaultThread thread_join name].

(* The step that delivers the result of a guarded move. *)
Definition is_guarded_move_done (s : Step) : bool :=
  match s with
  | on_guarded_move_done _ _ _ => true
  | _ => false
  end.

(* What a fault callback and a joint-state callback leave alone. *)
Definition same_outside_faults (w w' : World) : Prop :=
  Running w' = Running w ∧ threads w' = threads w ∧ antenna w' = antenna w
  ∧ JointsAtHardTorqueLimit w' = JointsAtHardTorqueLimit w
  ∧ JointsAtSoftTorqueLimit w' = JointsAtSoftTorqueLimit w
  ∧ JointTelemetryMap w' = JointTelemetryMap w
  ∧ GroundFound w' = GroundFound w ∧ GroundPosition w' = GroundPosition w.

Definition same_outside_joints (w w' : World) : Prop :=
  (∀ name, name ≠ Op_PanAntenna → name ≠ Op_TiltAntenna →
           Running w' !! name = Running w !! name)
  ∧ threads w' = threads w ∧ antenna w' = antenna w ∧ faults w' = faults w
  ∧ GroundFound w' = GroundFound w ∧ GroundPosition w' = GroundPosition w.

(* A command step whose id is not the idle marker. *)
Definition proper_id (s : Step) : Prop :=
  ∀ op id, command_of s = Some (op, id) → id ≠ IDLE_ID.

(* A thread of the pool holds its operation: the registry shows the
   operation running with the thread's id. *)
Definition thread_holds (w : World) (t : ActionThread) : Prop :=
  is_action (th_op t) = true ∧ th_id t ≠ IDLE_ID
  ∧ Running w !! LanderOpName (th_op t) = Some (th_id t).

(* A thread that has yet to set its entry idle. *)
Definition before_reset (t : ActionThread) : bool :=
  match th_phase t with
  | Finishing => false
  | _ => true
  end.

Definition holding (pool : list ActionThread) : list ActionThread :=
  filter (λ t, before_reset t = true) pool.

(* Among the threads that have yet to set their entry idle there is
   at most one per operation, each holding it. *)
Definition exclusive (w : World) : Prop :=
  NoDup (th_op <$> holding (threads w))
  ∧ Forall (thread_holds w) (holding (threads w)).

(* Entry [i] of the message names joint [j]. *)
Definition names_joint (msg : JointState) (i : nat) (j : Joint) : Prop :=
  ∃ ros_name, js_name msg !! i = Some ros_name ∧ JointMap !! ros_name = Some j.

(* The sample entry [i] of the message carries, when it is all there. *)
Definition sample_at (msg : JointState) (i : nat) : option JointTelemetry :=
  p ← js_position msg !! i;
  v ← js_velocity msg !! i;
  e ← js_effort msg !! i;
  Some (Build_JointTelemetry p v e).

(* What [proj] reads in the state a run of [steps] from [w] ends in. *)
Definition after {A} (steps : list Step) (w : World) (proj : World → A)
  : option A :=
  proj <$> world_of (run steps w).

(** * Properties *)

(** ** Reading runs *)

Ltac munfold :=
  unfold when, skip, ROS_WARN, ROS_ERROR, ROS_INFO, publish_op,
    publish_real, publish_bool, CommandStatusCallback, modify, get, throw,
    terminate, ros_Time_now, Running_at, Running_assign, vec_at,
    mbind, M_bind, mret, M_ret in *.

Lemma emitted_emit w es : emitted w (emit es w) = es.
Proof. unfold emitted. simpl. by rewrite drop_app_length. Qed.

Lemma emitted_after w w1 es : trace w1 = trace w → emitted w (emit es w1) = es.
Proof. intros H. unfold emitted. simpl. rewrite H. by rewrite drop_app_length. Qed.

Lemma emitted_refl w : emitted w w = [].
Proof. unfold emitted. by rewrite drop_all. Qed.

Lemma emit_nil w : emit [] w = w.
Proof. destruct w. unfold emit. simpl. by rewrite app_nil_r. Qed.

Lemma emit_emit es1 es2 w : emit es2 (emit es1 w) = emit (es1 ++ es2) w.
Proof. unfold emit. simpl. by rewrite app_assoc. Qed.

(* The test that guards the warning of mark_operation_finished never
   holds: [!x] is 0 or 1. *)
Lemma lnot_never_idle r : (lnot r =? IDLE_ID) = false.
Proof. unfold lnot, IDLE_ID. by destruct (r =? 0). Qed.

(** ** The registry *)

Lemma mark_operation_running_busy w name id r :
  Running w !! name = Some r → r ≠ IDLE_ID →
  mark_operation_running name id w
  = Ok false (emit [ROS_LOG WARN (AlreadyRunning name)] w).
Proof.
  intros Hr Hne. unfold mark_operation_running. munfold. rewrite Hr.
  destruct (Z.eqb_spec r IDLE_ID); [done | reflexivity].
Qed.

Lemma mark_operation_running_idle w name id :
  Running w !! name = Some IDLE_ID →
  mark_operation_running name id w = Ok true (admit_to name id w).
Proof.
  intros Hr. unfold mark_operation_running. munfold. rewrite Hr. simpl.
  by rewrite Hr.
Qed.

Lemma mark_operation_finished_known w name id r :
  Running w !! name = Some r →
  mark_operation_finished name id w = Ok tt (complete_to name id w).
Proof.
  intros Hr. unfold mark_operation_finished, complete_to. munfold.
  rewrite Hr, lnot_never_idle. simpl. rewrite Hr. simpl.
  destruct (Z.eqb_spec id IDLE_ID); case_decide; try done; simpl;
    by rewrite !emit_emit.
Qed.

Lemma operationRunning_known w name r :
  Running w !! name = Some r →
  operationRunning name w = Ok (negb (r =? IDLE_ID)) w.
Proof. intros Hr. unfold operationRunning. munfold. by rewrite Hr. Qed.

Lemma admission_closed_running w name r :
  Running w !! name = Some r → r ≠ IDLE_ID → admission_closed name w.
Proof.
  intros Hr Hne id2. eexists. split.
  - by apply (mark_operation_running_busy _ _ _ r).
  - reflexivity.
Qed.

(** C1, as the specification words it, is false when the command id
    is the idle marker: admitting DigLinear with id -1 succeeds and
    leaves the entry idle, so a second admission succeeds too. *)
Lemma admit_idle_id_counterexample : ¬ admits Op_DigLinear IDLE_ID w0.
Proof.
  intros (w1 & H1 & _ & _ & Hclosed).
  rewrite mark_operation_running_idle in H1 by reflexivity.
  injection H1 as <-.
  destruct (Hclosed 8) as (w2 & H2 & _).
  rewrite mark_operation_running_idle in H2 by reflexivity.
  discriminate H2.
Qed.

(** C1 (amended): for a name of the registry, admission of a running
    operation returns false, logs the warning and changes nothing else;
    admission of an idle operation with a command id other than the
    idle marker returns true, stores the id, publishes Running = true
    for the name, and closes admission of that name. *)
Theorem mark_operation_running_spec w name id r :
  Running w !! name = Some r →
  (r ≠ IDLE_ID →
     mark_operation_running name id w
     = Ok false (emit [ROS_LOG WARN (AlreadyRunning name)] w))
  ∧ (r = IDLE_ID → id ≠ IDLE_ID → admits name id w).
Proof.
  intros Hr. split.
  - intros Hne. by apply (mark_operation_running_busy _ _ _ r).
  - intros -> Hid. exists (admit_to name id w). split; [|split; [|split]].
    + by apply mark_operation_running_idle.
    + reflexivity.
    + by apply emitted_after.
    + apply (admission_closed_running _ _ id); [|done].
      simpl. apply lookup_insert_eq.
Qed.

Lemma mark_operation_running_witness :
  admits Op_DigLinear 7 w0
  ∧ mark_operation_running Op_DigLinear 8 (admit_to Op_DigLinear 7 w0)
    = Ok false (emit [ROS_LOG WARN (AlreadyRunning Op_DigLinear)]
                  (admit_to Op_DigLinear 7 w0)).
Proof.
  split.
  - apply (proj2 (mark_operation_running_spec
                    w0 Op_DigLinear 7 IDLE_ID eq_refl));
      [reflexivity | discriminate].
  - apply (proj1 (mark_operation_running_spec
                    (admit_to Op_DigLinear 7 w0) Op_DigLinear 8 7 eq_refl)).
    discriminate.
Defined.

(** C5: completion of a name of the registry sets it idle, publishes
    Running = false and then Finished = true for it, and calls the
    status callback with (id, true) exactly when the id is not the
    idle marker; no call with success = false is ever made. *)
Theorem mark_operation_finished_spec w name id r :
  Running w !! name = Some r →
  ∃ w', mark_operation_finished name id w = Ok tt w'
        ∧ Running w' = <[name := IDLE_ID]> (Running w)
        ∧ filter (λ e, negb (is_log e)) (emitted w w')
          = [PublishOp "Running" false name; PublishOp "Finished" true name]
            ++ (if decide (id = IDLE_ID) then [] else [CommandStatus id true])
        ∧ (∀ id' success, CommandStatus id' success ∈ emitted w w' →
             id' = id ∧ success = true ∧ id ≠ IDLE_ID).
Proof.
  intros Hr. exists (complete_to name id w). split; [|split; [|split]].
  - by apply (mark_operation_finished_known _ _ _ r).
  - reflexivity.
  - unfold complete_to. rewrite emitted_after by reflexivity.
    by case_decide.
  - intros id' success. unfold complete_to.
    rewrite emitted_after by reflexivity.
    case_decide; simpl; rewrite ?elem_of_cons, ?elem_of_nil;
      intros H'; repeat destruct H' as [H'|H']; try done.
    by injection H' as -> ->.
Qed.

Lemma mark_operation_finished_witness :
  ∃ w', mark_operation_finished Op_DigLinear 7 (admit_to Op_DigLinear 7 w0)
        = Ok tt w'
        ∧ Running w' !! Op_DigLinear = Some IDLE_ID
        ∧ CommandStatus 7 true ∈ emitted (admit_to Op_DigLinear 7 w0) w'.
Proof.
  destruct (mark_operation_finished_spec
              (admit_to Op_DigLinear 7 w0) Op_DigLinear 7 7 eq_refl)
    as (w' & Hrun & HR & Hev & _).
  exists w'. split; [exact Hrun|]. split.
  - rewrite HR. apply lookup_insert_eq.
  - assert (Hin : CommandStatus 7 true
                  ∈ filter (λ e, negb (is_log e))
                      (emitted (admit_to Op_DigLinear 7 w0) w')).
    { rewrite Hev. simpl. set_solver. }
    by apply list_elem_of_filter in Hin as [_ Hin].
Defined.

(** C6, as the specification words it, is false: completing the idle
    Stow with id 7 publishes both notifications and calls the status
    callback. *)
Lemma complete_on_idle_counterexample :
  ¬ complete_on_idle_only_logs Op_Stow 7 w0.
Proof.
  intros (w' & Hrun & _ & Hall).
  rewrite (mark_operation_finished_known w0 Op_Stow 7 IDLE_ID) in Hrun
    by reflexivity.
  injection Hrun as <-. unfold complete_to in Hall.
  rewrite emitted_after in Hall by reflexivity.
  apply Forall_cons in Hall as [Hhd _]. discriminate Hhd.
Qed.

(** C6 (amended): completing an operation that is already idle leaves
    the registry as it was, and still publishes Running = false, then
    Finished = true, and calls the status callback with (id, true)
    when the id is not the idle marker. *)
Theorem mark_operation_finished_idle w name id :
  Running w !! name = Some IDLE_ID →
  ∃ w', mark_operation_finished name id w = Ok tt w'
        ∧ Running w' = Running w
        ∧ filter (λ e, negb (is_log e)) (emitted w w')
          = [PublishOp "Running" false name; PublishOp "Finished" true name]
            ++ (if decide (id = IDLE_ID) then [] else [CommandStatus id true]).
Proof.
  intros Hr. exists (complete_to name id w). split; [|split].
  - by apply (mark_operation_finished_known _ _ _ IDLE_ID).
  - simpl. by apply insert_id.
  - unfold complete_to. rewrite emitted_after by reflexivity.
    by case_decide.
Qed.

Lemma mark_operation_finished_idle_witness :
  ∃ w', mark_operation_finished Op_Stow 7 w0 = Ok tt w'
        ∧ Running w' = Running w0
        ∧ filter (λ e, negb (is_log e)) (emitted w0 w')
          = [PublishOp "Running" false Op_Stow;
             PublishOp "Finished" true Op_Stow; CommandStatus 7 true].
Proof. apply (mark_operation_finished_idle w0 Op_Stow 7). reflexivity. Defined.

(** ** Pan/tilt completion *)

Lemma managePanTilt_idle w opname position velocity current goal start :
  Running w !! opname = Some IDLE_ID →
  managePanTilt opname position velocity current goal start w = Ok tt w.
Proof.
  intros Hr. unfold managePanTilt.
  unfold mbind at 1, M_bind at 1.
  by rewrite (operationRunning_known _ _ IDLE_ID).
Qed.

Lemma managePanTilt_running w opname position velocity current goal start r :
  Running w !! opname = Some r → r ≠ IDLE_ID →
  managePanTilt opname position velocity current goal start w
  = Ok tt
      (let reached := within_tolerance current goal DegreeTolerance in
       let expired := clock w >? start + Duration PanTiltTimeout in
       if reached || expired then
         emit (pan_tilt_errors opname current goal reached expired)
              (complete_to opname r w)
       else w).
Proof.
  intros Hr Hne. unfold managePanTilt.
  unfold mbind at 1, M_bind at 1.
  rewrite (operationRunning_known _ _ r) by done.
  destruct (Z.eqb_spec r IDLE_ID) as [|_]; [done|]. simpl.
  unfold mbind at 1, M_bind at 1, Running_at at 1. rewrite Hr.
  unfold mbind at 1, M_bind at 1, ros_Time_now, get. simpl.
  destruct (within_tolerance current goal DegreeTolerance) eqn:Hreach,
    (clock w >? start + Duration PanTiltTimeout) eqn:Hexp; simpl;
    try reflexivity;
    unfold mbind, M_bind;
    rewrite (mark_operation_finished_known _ _ _ r) by done;
    unfold pan_tilt_errors; munfold; simpl; by rewrite ?emit_emit, ?emit_nil.
Qed.

(** C4: a sample for an operation that is not running changes
    nothing.  A sample for a running pan or tilt completes it exactly
    when |current - goal| <= 0.2 or now > start + 5 s; the completion
    sets the operation idle and calls the status callback once, the
    time-out error is logged iff the time-out expired and the failure
    error, with the final and goal values, iff the goal was not
    reached; any later sample, whenever it comes and whatever it
    carries, changes nothing. *)
Theorem managePanTilt_spec w opname position velocity current goal start r :
  Running w !! opname = Some r →
  let reached := within_tolerance current goal DegreeTolerance in
  let expired := clock w >? start + Duration PanTiltTimeout in
  ∃ w', managePanTilt opname position velocity current goal start w = Ok tt w'
    ∧ (r = IDLE_ID → w' = w)
    ∧ (r ≠ IDLE_ID →
         (Running w' !! opname = Some IDLE_ID ↔ reached || expired = true)
         ∧ (reached || expired = false → w' = w)
         ∧ (reached || expired = true →
              Running w' = <[opname := IDLE_ID]> (Running w)
              ∧ filter is_command_status (emitted w w')
                = [CommandStatus r true]
              ∧ filter is_log (emitted w w')
                = (if expired then [ROS_LOG ERROR (TimedOut opname)] else [])
                  ++ (if reached then []
                      else [ROS_LOG ERROR (Failed opname current goal)])
              ∧ ∀ now' position' velocity' current' goal' start',
                  managePanTilt opname position' velocity' current' goal'
                    start' (set_clock now' w')
                  = Ok tt (set_clock now' w'))).
Proof.
  intros Hr reached expired.
  destruct (decide (r = IDLE_ID)) as [->|Hne].
  { exists w. split; [by apply managePanTilt_idle|]. split; done. }
  eexists. split; [by apply (managePanTilt_running _ _ _ _ _ _ _ r)|].
  split; [done|]. intros _. simpl. fold reached expired.
  destruct (reached || expired) eqn:Hdone.
  - split; [|split; [done|]].
    { split; [done|]. intros _. simpl. apply lookup_insert_eq. }
    intros _. split; [reflexivity|].
    unfold complete_to. rewrite emit_emit, emitted_after by reflexivity.
    unfold pan_tilt_errors. split; [|split].
    + case_decide; [done|]. by destruct expired, reached.
    + case_decide; by destruct expired, reached.
    + intros. apply managePanTilt_idle. simpl. apply lookup_insert_eq.
  - split; [|split; [done|done]].
    split; [|done]. intros Hidle. rewrite Hr in Hidle. congruence.
Qed.

(* Pan admitted with id 7 at time 0; one sample at 29.85 degrees after
   one second, or one at 10 degrees after six. *)
Lemma managePanTilt_witness :
  (∃ w', managePanTilt Op_PanAntenna 0 0 deg_29_85 deg_30 0
           (set_clock 1000000000 (admit_to Op_PanAntenna 7 w0)) = Ok tt w'
         ∧ Running w' !! Op_PanAntenna = Some IDLE_ID
         ∧ filter is_log
             (emitted (set_clock 1000000000 (admit_to Op_PanAntenna 7 w0)) w')
           = [])
  ∧ (∃ w', managePanTilt Op_PanAntenna 0 0 deg_10 deg_30 0
             (set_clock 6000000000 (admit_to Op_PanAntenna 7 w0)) = Ok tt w'
           ∧ Running w' !! Op_PanAntenna = Some IDLE_ID
           ∧ filter is_log
               (emitted (set_clock 6000000000 (admit_to Op_PanAntenna 7 w0)) w')
             = [ROS_LOG ERROR (TimedOut Op_PanAntenna);
                ROS_LOG ERROR (Failed Op_PanAntenna deg_10 deg_30)]).
Proof.
  split.
  - destruct (managePanTilt_spec
                (set_clock 1000000000 (admit_to Op_PanAntenna 7 w0))
                Op_PanAntenna 0 0 deg_29_85 deg_30 0 7 eq_refl)
      as (w' & Hrun & _ & Hrunning).
    destruct (Hrunning ltac:(discriminate)) as (Hiff & _ & Hdone).
    exists w'. split; [exact Hrun|]. split.
    + apply Hiff. reflexivity.
    + destruct (Hdone eq_refl) as (_ & _ & Hlog & _). exact Hlog.
  - destruct (managePanTilt_spec
                (set_clock 6000000000 (admit_to Op_PanAntenna 7 w0))
                Op_PanAntenna 0 0 deg_10 deg_30 0 7 eq_refl)
      as (w' & Hrun & _ & Hrunning).
    destruct (Hrunning ltac:(discriminate)) as (Hiff & _ & Hdone).
    exists w'. split; [exact Hrun|]. split.
    + apply Hiff. reflexivity.
    + destruct (Hdone eq_refl) as (_ & _ & Hlog & _). exact Hlog.
Defined.

(** ** Torque limits *)

(** C8: on an effort update of a joint, if |effort| >= its hard limit
    the joint enters the hard-limit set and the soft-limit set is left
    as it is; otherwise, if |effort| >= its soft limit, the joint
    enters the soft-limit set and the hard-limit set is left as it is;
    otherwise the joint leaves both sets. *)
Theorem handle_overtorque_spec w joint effort :
  let joint_name := plexilName (JointPropMap joint) in
  let at_hard := fge (fabs effort) (hardTorqueLimit (JointPropMap joint)) in
  let at_soft := fge (fabs effort) (softTorqueLimit (JointPropMap joint)) in
  ∃ w', handle_overtorque joint effort w = Ok tt w'
    ∧ (at_hard = true →
         JointsAtHardTorqueLimit w' = JointsAtHardTorqueLimit w ∪ {[joint_name]}
         ∧ JointsAtSoftTorqueLimit w' = JointsAtSoftTorqueLimit w)
    ∧ (at_hard = false → at_soft = true →
         JointsAtSoftTorqueLimit w' = JointsAtSoftTorqueLimit w ∪ {[joint_name]}
         ∧ JointsAtHardTorqueLimit w' = JointsAtHardTorqueLimit w)
    ∧ (at_hard = false → at_soft = false →
         JointsAtHardTorqueLimit w' = JointsAtHardTorqueLimit w ∖ {[joint_name]}
         ∧ JointsAtSoftTorqueLimit w' = JointsAtSoftTorqueLimit w ∖ {[joint_name]})
    ∧ Running w' = Running w ∧ trace w' = trace w.
Proof.
  intros joint_name at_hard at_soft. unfold handle_overtorque.
  fold joint_name at_hard at_soft. munfold.
  destruct at_hard, at_soft; simpl; eexists; (split; [reflexivity|]);
    simpl; repeat split; intros; congruence.
Qed.

(* Efforts of 65, 85 and 10 on the shoulder yaw joint (limits 60/80),
   one after the other. *)
Lemma handle_overtorque_witness :
  ∃ w1 w2 w3,
    handle_overtorque shoulder_yaw 65 w0 = Ok tt w1
    ∧ handle_overtorque shoulder_yaw 85 w1 = Ok tt w2
    ∧ handle_overtorque shoulder_yaw 10 w2 = Ok tt w3
    ∧ JointsAtSoftTorqueLimit w1 = {["ShoulderYaw"]}
    ∧ JointsAtHardTorqueLimit w1 = ∅
    ∧ JointsAtSoftTorqueLimit w2 = {["ShoulderYaw"]}
    ∧ JointsAtHardTorqueLimit w2 = {["ShoulderYaw"]}
    ∧ JointsAtSoftTorqueLimit w3 = ∅
    ∧ JointsAtHardTorqueLimit w3 = ∅.
Proof.
  destruct (handle_overtorque_spec w0 shoulder_yaw 65)
    as (w1 & H1 & _ & Hsoft1 & _).
  destruct (Hsoft1 eq_refl eq_refl) as [Hs1 Hh1].
  destruct (handle_overtorque_spec w1 shoulder_yaw 85)
    as (w2 & H2 & Hhard2 & _).
  destruct (Hhard2 eq_refl) as [Hh2 Hs2].
  destruct (handle_overtorque_spec w2 shoulder_yaw 10)
    as (w3 & H3 & _ & _ & Hnone3 & _).
  destruct (Hnone3 eq_refl eq_refl) as [Hh3 Hs3].
  exists w1, w2, w3. split_and!; try assumption.
  all: rewrite ?Hs3, ?Hh3, ?Hs2, ?Hh2, ?Hs1, ?Hh1; set_solver.
Defined.

(** ** Fault tracking *)

Lemma faultCallback_body_run d msg_val entry w :
  faultCallback_body d msg_val entry w = Ok tt (after_entry d msg_val w entry).
Proof.
  destruct entry as [key [value b]].
  unfold faultCallback_body, checkFaultMessages, after_entry, fault_report,
    flips. simpl.
  destruct b, (bit_test msg_val value); simpl; munfold; simpl;
    rewrite ?emit_nil; reflexivity.
Qed.

Lemma for_each_faultCallback_body d msg_val entries w :
  for_each entries (faultCallback_body d msg_val) w
  = Ok tt (foldl (after_entry d msg_val) w entries).
Proof.
  revert w. induction entries as [|e entries IH]; intros w; [done|].
  simpl. unfold mbind, M_bind. rewrite faultCallback_body_run. apply IH.
Qed.

Lemma errors_of_set_errors_of d g f :
  errors_of d (set_errors_of d g f) = g (errors_of d f).
Proof. by destruct d. Qed.

Lemma errors_of_set_errors_of_ne d d' g f :
  d' ≠ d → errors_of d' (set_errors_of d g f) = errors_of d' f.
Proof. by destruct d, d'. Qed.

Lemma after_entries_errors d msg_val entries w :
  errors_of d (faults (foldl (after_entry d msg_val) w entries))
  = foldl (flip_in msg_val) (errors_of d (faults w)) entries.
Proof.
  revert w. induction entries as [|e entries IH]; intros w; [done|].
  simpl. rewrite IH. f_equal. unfold after_entry, flip_in.
  destruct (flips msg_val e); [|done]. simpl.
  apply errors_of_set_errors_of.
Qed.

Lemma after_entries_other d d' msg_val entries w :
  d' ≠ d →
  errors_of d' (faults (foldl (after_entry d msg_val) w entries))
  = errors_of d' (faults w).
Proof.
  intros Hne. revert w.
  induction entries as [|e entries IH]; intros w; [done|].
  simpl. rewrite IH. unfold after_entry.
  destruct (flips msg_val e); [|done]. simpl.
  by apply errors_of_set_errors_of_ne.
Qed.

Lemma after_entries_trace d msg_val entries w :
  trace (foldl (after_entry d msg_val) w entries)
  = trace w ++ flat_map (fault_report d msg_val) entries.
Proof.
  revert w. induction entries as [|e entries IH]; intros w.
  { simpl. by rewrite app_nil_r. }
  simpl. rewrite IH, app_assoc. f_equal. unfold after_entry, flips.
  destruct e as [key [value b]]. unfold fault_report. simpl.
  destruct (Bool.eqb _ _); simpl; [by rewrite app_nil_r | done].
Qed.

Lemma after_entries_steady d msg_val entries w :
  Forall (λ e, flips msg_val e = false) entries →
  foldl (after_entry d msg_val) w entries = w.
Proof.
  induction 1 as [|e entries He _ IH]; [done|].
  simpl. unfold after_entry at 2. by rewrite He.
Qed.

(* Walking a listing of the map with distinct keys brings every
   listed flag to its bit test. *)
Lemma flip_in_lookup msg_val entries (m : gmap string (Z * bool)) k :
  NoDup entries.*1 →
  (∀ e, e ∈ entries → m !! e.1 = Some e.2) →
  foldl (flip_in msg_val) m entries !! k
  = if decide (k ∈ entries.*1) then retest msg_val <$> m !! k else m !! k.
Proof.
  revert m. induction entries as [|e entries IH]; intros m Hnd Hin.
  { rewrite decide_False by set_solver. done. }
  rewrite fmap_cons in Hnd. apply NoDup_cons in Hnd as [Hfresh Hnd].
  rewrite fmap_cons. cbn [foldl].
  assert (Hstep : ∀ k', k' ≠ e.1 → flip_in msg_val m e !! k' = m !! k').
  { intros k' Hk'. unfold flip_in. destruct (flips msg_val e); [|done].
    by apply lookup_alter_ne. }
  rewrite IH; [|done|].
  2:{ intros e' He'. rewrite Hstep.
      - apply Hin. by right.
      - intros Heq. apply Hfresh. rewrite <- Heq.
        by apply list_elem_of_fmap_2. }
  destruct (decide (k = e.1)) as [->|Hk].
  - rewrite decide_False by done. rewrite decide_True by set_solver.
    specialize (Hin e ltac:(left)). rewrite Hin. unfold flip_in, flips.
    destruct e as [key [value b]]. simpl in *.
    destruct (Bool.eqb _ b) eqn:Heq; simpl.
    + apply Bool.eqb_prop in Heq. rewrite Hin. unfold retest. simpl.
      by rewrite Heq.
    + rewrite lookup_alter_eq, Hin. unfold retest, toggle. simpl.
      by destruct (bit_test msg_val value), b.
  - rewrite Hstep by done.
    destruct (decide (k ∈ entries.*1)) as [H2|H2].
    + rewrite decide_True; [done | by right].
    + rewrite decide_False; [done|]. by intros [?|?]%elem_of_cons.
Qed.

Lemma in_key_order_elem {V} (m : gmap string V) e :
  e ∈ in_key_order m ↔ m !! e.1 = Some e.2.
Proof.
  unfold in_key_order. rewrite merge_sort_Permutation.
  destruct e as [k v]. apply elem_of_map_to_list.
Qed.

Lemma in_key_order_NoDup {V} (m : gmap string V) :
  NoDup (in_key_order m).*1.
Proof.
  unfold in_key_order. rewrite merge_sort_Permutation.
  apply NoDup_fst_map_to_list.
Qed.

Lemma flip_in_all msg_val (m : gmap string (Z * bool)) :
  foldl (flip_in msg_val) m (in_key_order m) = retest msg_val <$> m.
Proof.
  apply map_eq. intros k. rewrite lookup_fmap.
  rewrite flip_in_lookup.
  - case_decide as Hk; [done|].
    destruct (m !! k) as [v|] eqn:Hm; [|done].
    exfalso. apply Hk. apply list_elem_of_fmap. exists (k, v).
    split; [done|]. by apply in_key_order_elem.
  - apply in_key_order_NoDup.
  - intros e. apply in_key_order_elem.
Qed.

Lemma retested_steady msg_val (m : gmap string (Z * bool)) :
  Forall (λ e, flips msg_val e = false)
         (in_key_order (retest msg_val <$> m)).
Proof.
  apply Forall_forall. intros [k [v b]] He.
  apply in_key_order_elem in He. simpl in He.
  rewrite lookup_fmap in He. destruct (m !! k) as [[v' b']|]; [|done].
  injection He as <- <-. unfold flips. simpl.
  by destruct (bit_test msg_val v').
Qed.

(** C7: in every fault domain, after a bitmask snapshot each stored
    flag equals the bit test (bitmask & bit) == bit; the log lines of
    the call are those of the entries whose test differs from the flag
    stored before, one each; processing the same bitmask again changes
    nothing and logs nothing; the tables of the other domains are left
    as they were. *)
Theorem faultCallback_spec d msg_val w :
  ∃ w', faultCallback d msg_val w = Ok tt w'
    ∧ errors_of d (faults w') = retest msg_val <$> errors_of d (faults w)
    ∧ emitted w w'
      = flat_map (fault_report d msg_val) (in_key_order (errors_of d (faults w)))
    ∧ faultCallback d msg_val w' = Ok tt w'
    ∧ (∀ d', d' ≠ d → errors_of d' (faults w') = errors_of d' (faults w)).
Proof.
  set (entries := in_key_order (errors_of d (faults w))).
  exists (foldl (after_entry d msg_val) w entries).
  assert (Herr : errors_of d (faults (foldl (after_entry d msg_val) w entries))
                 = retest msg_val <$> errors_of d (faults w)).
  { rewrite after_entries_errors. apply flip_in_all. }
  split_and!.
  - unfold faultCallback. munfold. apply for_each_faultCallback_body.
  - exact Herr.
  - unfold emitted. rewrite after_entries_trace. by rewrite drop_app_length.
  - unfold faultCallback. munfold. rewrite for_each_faultCallback_body.
    f_equal. apply after_entries_steady. rewrite Herr.
    apply retested_steady.
  - intros d' Hne. by apply after_entries_other.
Qed.

(** ** The joint-state callback *)

Lemma JointMap_size : size JointMap = 9%nat.
Proof. reflexivity. Qed.








(** ** Invariants of runs *)

Section keeps.
Context (P : World → Prop).

Lemma keeps_ret {A} (a : A) : keeps P (mret a).
Proof. intros w a' w' HP Hrun. by injection Hrun as _ <-. Qed.

Lemma keeps_bind {A B} (m : M A) (f : A → M B) :
  keeps P m → (∀ a, keeps P (f a)) → keeps P (m ≫= f).
Proof.
  intros Hm Hf w b w' HP Hrun. unfold mbind, M_bind in Hrun.
  destruct (m w) as [a w1|e] eqn:Hmw; [|done].
  eapply Hf; [|exact Hrun]. by eapply Hm.
Qed.

Lemma keeps_if {A} (b : bool) (m1 m2 : M A) :
  keeps P m1 → keeps P m2 → keeps P (if b then m1 else m2).
Proof. by destruct b. Qed.

Lemma keeps_get {A} (proj : World → A) : keeps P (get proj).
Proof. intros w a w' HP Hrun. by injection Hrun as _ <-. Qed.

Lemma keeps_modify (f : World → World) :
  (∀ w, P w → P (f w)) → keeps P (modify f).
Proof. intros Hf w a w' HP Hrun. injection Hrun as _ <-. by apply Hf. Qed.

Lemma keeps_skip : keeps P skip.
Proof. apply keeps_ret. Qed.

Lemma keeps_throw {A} e : keeps P (throw e : M A).
Proof. by intros w a w' HP Hrun. Qed.

Lemma keeps_terminate {A} : keeps P (terminate : M A).
Proof. by intros w a w' HP Hrun. Qed.

Lemma keeps_when (c : bool) (m : M unit) : keeps P m → keeps P (when c m).
Proof. intros Hm. unfold when. apply keeps_if; [done | apply keeps_skip]. Qed.

Lemma keeps_vec_at {A} (vec : list A) i : keeps P (vec_at vec i).
Proof.
  intros w a w' HP Hrun. unfold vec_at in Hrun.
  destruct (vec !! i); [|done]. by injection Hrun as _ <-.
Qed.

Lemma keeps_Running_at name : keeps P (Running_at name).
Proof.
  intros w a w' HP Hrun. unfold Running_at in Hrun.
  destruct (Running w !! name); [|done]. by injection Hrun as _ <-.
Qed.

Lemma keeps_for_each {A} (l : list A) (body : A → M unit) :
  (∀ x, keeps P (body x)) → keeps P (for_each l body).
Proof.
  intros Hbody. induction l as [|x l IH]; simpl.
  - apply keeps_skip.
  - apply keeps_bind; [apply Hbody | by intros _].
Qed.

Lemma keeps_for_range i count (body : nat → M unit) :
  (∀ j, keeps P (body j)) → keeps P (for_range i count body).
Proof.
  intros Hbody. revert i. induction count as [|count IH]; intros i; simpl.
  - apply keeps_skip.
  - apply keeps_bind; [apply Hbody | intros _; apply IH].
Qed.
End keeps.

Lemma LanderOpName_inj op1 op2 : LanderOpName op1 = LanderOpName op2 → op1 = op2.
Proof. destruct op1, op2; intros H; try reflexivity; discriminate H. Qed.

Lemma forall_drop_app {A} (ok : A → Prop) k (l es : list A) :
  Forall ok (drop k l) → Forall ok es → Forall ok (drop k (l ++ es)).
Proof.
  intros Hl Hes. rewrite drop_app. apply Forall_app. split; [done|].
  by apply Forall_drop.
Qed.

(** ** Dispatch with no action client *)

Lemma action_send_null t w :
  client_of (th_op t) (clients w) = Some false →
  action_send t w
  = Throw (std_terminate
             (emit [FaultThread thread_start (LanderOpName (th_op t));
                    ROS_LOG ERROR (client_null_error (th_op t))] w)).
Proof.
  intros Hnull. unfold action_send, guardedMoveAction_send, runAction_send.
  destruct (th_op t); try discriminate Hnull; munfold; simpl in *;
    injection Hnull as ->; simpl; by rewrite emit_emit.
Qed.

Lemma action_send_sent t w :
  client_of (th_op t) (clients w) = Some true →
  action_send t w
  = Ok tt (emit [FaultThread thread_start (LanderOpName (th_op t));
                 SendGoal (LanderOpName (th_op t)) (th_goal t)] w).
Proof.
  intros Hclient. unfold action_send, guardedMoveAction_send, runAction_send.
  destruct (th_op t); try discriminate Hclient; munfold; simpl in *;
    injection Hclient as ->; simpl; by rewrite emit_emit.
Qed.

Lemma run_cons s steps w :
  run (s :: steps) w
  = match step s w with Ok _ w1 => run steps w1 | Throw e => Throw e end.
Proof. reflexivity. Qed.

(** C3 does not hold of the code: when an action thread reaches the
    send step and its client is null, the thread logs the error, with
    no notification and no status callback, and the registry is as
    admission left it; but the thread does not return to leave the
    entry running from then on: its return destroys the fault thread
    it has neither joined nor detached, the process is terminated
    there, and no later step of the interface runs. *)
Theorem null_client_terminates w n t :
  threads w !! n = Some t → th_phase t = Spawned →
  client_of (th_op t) (clients w) = Some false →
  ∃ w1, step (thread_begins n) w = Throw (std_terminate w1)
    ∧ emitted w w1
      = [FaultThread thread_start (LanderOpName (th_op t));
         ROS_LOG ERROR (client_null_error (th_op t))]
    ∧ Running w1 = Running w
    ∧ threads w1 = threads w
    ∧ ∀ steps, run (thread_begins n :: steps) w = Throw (std_terminate w1).
Proof.
  intros Ht Hphase Hnull.
  assert (Hstep : step (thread_begins n) w
    = Throw (std_terminate
               (emit [FaultThread thread_start (LanderOpName (th_op t));
                      ROS_LOG ERROR (client_null_error (th_op t))] w))).
  { simpl. unfold schedule. unfold mbind at 1, M_bind at 1, get.
    rewrite Ht, Hphase. unfold mbind, M_bind. by rewrite action_send_null. }
  eexists. split_and!.
  - exact Hstep.
  - by apply emitted_after.
  - reflexivity.
  - reflexivity.
  - intros steps. by rewrite run_cons, Hstep.
Qed.

Lemma stow_reaches_w_stow : step (do_stow 7) w0 = Ok tt w_stow.
Proof. reflexivity. Qed.

Lemma null_client_terminates_witness :
  ∃ w1, step (thread_begins 0) w_stow = Throw (std_terminate w1)
    ∧ emitted w_stow w1
      = [FaultThread thread_start Op_Stow;
         ROS_LOG ERROR (ActionClientNull Op_Stow)]
    ∧ Running w1 !! Op_Stow = Some 7
    ∧ ∀ steps, run (thread_begins 0 :: steps) w_stow = Throw (std_terminate w1).
Proof.
  destruct (null_client_terminates w_stow 0
              {| th_op := Stow; th_goal := StowGoal 0; th_id := 7;
                 th_phase := Spawned |} eq_refl eq_refl eq_refl)
    as (w1 & Hstep & Hev & HR & _ & Hlater).
  exists w1. split_and!; [exact Hstep | exact Hev | by rewrite HR | exact Hlater].
Defined.

(** C2 does not hold of the code: Stow, called with id 7 while its
    action client is null, is admitted (the entry holds 7); its thread
    logs the error and the process is terminated at the thread's
    return, with no status callback made for 7 and no later step in
    which one could be made. *)
Theorem stow_without_client_never_reports :
  after [do_stow 7] w0 (λ w, Running w !! Op_Stow) = Some (Some 7)
  ∧ ∃ w1, run [do_stow 7; thread_begins 0] w0 = Throw (std_terminate w1)
      ∧ Running w1 !! Op_Stow = Some 7
      ∧ filter is_command_status (trace w1) = []
      ∧ ∀ steps, run ([do_stow 7; thread_begins 0] ++ steps) w0
                 = Throw (std_terminate w1).
Proof.
  split; [reflexivity|].
  eexists. split_and!; [reflexivity ..|].
  intros steps. reflexivity.
Qed.

(** C9 does not hold of the code: a pan command refused because Pan
    is running (id 7, goal 30 degrees, started at time 0) still
    overwrites the goal angle and the start time of the pan in
    flight. *)
Theorem refused_pan_overwrites_goal_and_start :
  let first := [do_panAntenna 30 7; time_passes 3000000000] in
  let both := first ++ [do_panAntenna 90 8] in
  let w := connect_clients w0 in
  after both w trace
  = (λ t, t ++ [ROS_LOG WARN (AlreadyRunning Op_PanAntenna)])
    <$> after first w trace
  ∧ after first w (λ w', Running w' !! Op_PanAntenna) = Some (Some 7)
  ∧ after both w (λ w', Running w' !! Op_PanAntenna) = Some (Some 7)
  ∧ after first w (λ w', m_goalPan (antenna w')) = Some 30%float
  ∧ after both w (λ w', m_goalPan (antenna w')) = Some 90%float
  ∧ after first w (λ w', m_panStart (antenna w')) = Some 0
  ∧ after both w (λ w', m_panStart (antenna w')) = Some 3000000000.
Proof. split_and!; vm_compute; reflexivity. Qed.

(** ** Runs on concrete inputs *)


(* The same bitmask twice logs once; then an alternating pattern logs
   at every change. *)
Example fault_edges :
  after [on_fault ARM 1; on_fault ARM 1; on_fault ARM 0; on_fault ARM 1;
         on_fault ARM 0] w0 trace
  = Some [ROS_LOG ERROR (FaultAsserted "ARM" "HARDWARE_ERROR");
          ROS_LOG INFO (FaultResolved "ARM" "HARDWARE_ERROR");
          ROS_LOG ERROR (FaultAsserted "ARM" "HARDWARE_ERROR");
          ROS_LOG INFO (FaultResolved "ARM" "HARDWARE_ERROR")].
Proof. vm_compute. reflexivity. Qed.

(* DigLinear admitted with 7, refused with 8, completed, admitted
   with 9. *)
Example dig_linear_scenario :
  let steps := [do_digLinear 0 0 0 0 0 7; do_digLinear 0 0 0 0 0 8;
                thread_begins 0; thread_returns 0 true; thread_ends 0;
                do_digLinear 0 0 0 0 0 9] in
  after steps (connect_clients w0) (λ w, Running w !! Op_DigLinear)
  = Some (Some 9)
  ∧ after steps (connect_clients w0) (λ w, filter is_command_status (trace w))
    = Some [CommandStatus 7 true].
Proof. split; vm_compute; reflexivity. Qed.

(** ** What the steps leave alone *)

Lemma keeps_assign (P : World → Prop) name id :
  (∀ w, P w → is_Some (Running w !! name) →
        P (set_Running <[name := id]> w)) →
  keeps P (Running_assign name id).
Proof.
  intros HP w a w' Hw Hrun. unfold Running_assign in Hrun.
  destruct (Running w !! name) eqn:Hname; [|done].
  injection Hrun as _ <-. apply HP; [done | by rewrite Hname].
Qed.

(* Walks a computation down to its assignments; [leaf] proves that one
   assignment keeps the property. *)
Ltac keeps_walk leaf :=
  repeat lazymatch goal with
  | |- keeps _ (mret _) => apply keeps_ret
  | |- keeps _ skip => apply keeps_skip
  | |- keeps _ (throw _) => apply keeps_throw
  | |- keeps _ terminate => apply keeps_terminate
  | |- keeps _ (get _) => apply keeps_get
  | |- keeps _ (vec_at _ _) => apply keeps_vec_at
  | |- keeps _ (Running_at _) => apply keeps_Running_at
  | |- keeps _ (when _ _) => apply keeps_when
  | |- keeps _ (mbind _ _) => apply keeps_bind; [|intros ?]
  | |- keeps _ (for_each _ _) => apply keeps_for_each; intros ?
  | |- keeps _ (for_range _ _ _) => apply keeps_for_range; intros ?
  | |- keeps _ (modify _) => apply keeps_modify; leaf
  | |- keeps _ (Running_assign _ _) => apply keeps_assign; leaf
  | |- keeps _ (match ?x with _ => _ end) => destruct x
  | |- keeps _ ?m =>
      let h := lazymatch m with
               | ?f _ _ _ _ _ _ _ _ => f | ?f _ _ _ _ _ _ _ => f
               | ?f _ _ _ _ _ _ => f | ?f _ _ _ _ _ => f | ?f _ _ _ _ => f
               | ?f _ _ _ => f | ?f _ _ => f | ?f _ => f | ?f => f
               end in
      unfold h
  end.

(* NOTE of the source: entries of Running are never added or deleted. *)
Lemma keeps_Running_keys (D : gset string) s :
  keeps (λ w, dom (Running w) = D) (step s).
Proof.
  keeps_walk ltac:(first [ by intros w Hw
                         | intros w Hw Hsome; simpl;
                           by rewrite dom_insert_lookup_L ]).
Qed.

Lemma run_app steps1 steps2 w :
  run (steps1 ++ steps2) w
  = match run steps1 w with
    | Ok _ w1 => run steps2 w1
    | Throw e => Throw e
    end.
Proof.
  revert w. induction steps1 as [|s steps1 IH]; intros w; [done|].
  simpl. unfold run in *. simpl. unfold mbind, M_bind.
  destruct (step s w) as [[] w1|e]; [apply IH | done].
Qed.

Lemma keeps_run_of (P : World → Prop) steps :
  (∀ s, keeps P (step s)) → keeps P (run steps).
Proof. intros Hstep. by apply keeps_for_each. Qed.

(** X1: no run of the interface adds an entry to the registry or
    deletes one. *)
Theorem run_keeps_Running_keys steps w w' :
  run steps w = Ok tt w' → dom (Running w') = dom (Running w).
Proof.
  intros Hrun.
  by apply (keeps_run_of (λ w1, dom (Running w1) = dom (Running w)) steps
              (keeps_Running_keys _) w tt w').
Qed.

Lemma run_keeps_Running_keys_witness :
  dom (Running w_stow) = dom (Running w0).
Proof. apply (run_keeps_Running_keys [do_stow 7] w0 w_stow). reflexivity. Defined.

Lemma has_catalogue_keys w w' :
  dom (Running w') = dom (Running w) → has_catalogue w → has_catalogue w'.
Proof.
  intros Hdom Hcat op. apply elem_of_dom. rewrite Hdom. apply elem_of_dom, Hcat.
Qed.

(** ** Queries and missing names *)

(** X2: running never fails.  For a name of the registry it answers
    whether the entry differs from the idle marker and changes
    nothing; for any other name it logs the error, answers false and
    changes nothing else. *)
Theorem running_spec name w :
  ∃ b w', running name w = Ok b w'
    ∧ (b = true ↔ ∃ r, Running w !! name = Some r ∧ r ≠ IDLE_ID)
    ∧ (is_Some (Running w !! name) → w' = w)
    ∧ (Running w !! name = None →
         w' = emit [ROS_LOG ERROR (UnsupportedOperation name)] w).
Proof.
  unfold running, is_lander_operation, operationRunning. munfold.
  destruct (Running w !! name) as [r|] eqn:Hname.
  - rewrite bool_decide_true by done. rewrite Hname.
    eexists _, _. split_and!; [reflexivity | | done | done].
    split.
    + intros Hb. exists r. split; [done|].
      intros ->. by rewrite Z.eqb_refl in Hb.
    + intros (r' & [= <-] & Hne). by apply negb_true_iff, Z.eqb_neq.
  - rewrite bool_decide_false by (by intros [? ?]).
    eexists _, _. split_and!; [reflexivity | | | done].
    + split; [done | by intros (? & ? & _)].
    + by intros [? ?].
Qed.

(** X3: on a name that is not in the registry, [Running.at] throws:
    admission, completion, the running test and the pan/tilt check all
    fail with out_of_range. *)
Theorem missing_name_throws name id position velocity current goal start w :
  Running w !! name = None →
  mark_operation_running name id w = Throw (out_of_range name)
  ∧ mark_operation_finished name id w = Throw (out_of_range name)
  ∧ operationRunning name w = Throw (out_of_range name)
  ∧ managePanTilt name position velocity current goal start w
    = Throw (out_of_range name).
Proof.
  intros Hname.
  unfold mark_operation_running, mark_operation_finished, managePanTilt,
    operationRunning.
  munfold. by rewrite Hname.
Qed.

Lemma missing_name_throws_witness :
  mark_operation_running "Drill" 7 w0 = Throw (out_of_range "Drill")
  ∧ mark_operation_finished "Drill" 7 w0 = Throw (out_of_range "Drill").
Proof.
  destruct (missing_name_throws "Drill" 7 0 0 0 0 0 w0 eq_refl)
    as (H1 & H2 & _).
  by split.
Defined.

(** X4: admission followed by completion with the same id brings the
    registry back to what it was, and sends out, in this order,
    Running = true, Running = false, Finished = true and the status
    callback with (id, true). *)
Theorem admit_then_complete w name id :
  Running w !! name = Some IDLE_ID → id ≠ IDLE_ID →
  ∃ w1 w2, mark_operation_running name id w = Ok true w1
    ∧ mark_operation_finished name id w1 = Ok tt w2
    ∧ Running w2 = Running w
    ∧ emitted w w2
      = [PublishOp "Running" true name; PublishOp "Running" false name;
         PublishOp "Finished" true name; CommandStatus id true].
Proof.
  intros Hidle Hid. exists (admit_to name id w).
  exists (complete_to name id (admit_to name id w)). split_and!.
  - by apply mark_operation_running_idle.
  - apply (mark_operation_finished_known _ _ _ id). simpl.
    apply lookup_insert_eq.
  - simpl. rewrite insert_insert_eq. by apply insert_id.
  - unfold complete_to, admit_to. rewrite decide_False by done.
    unfold emitted. simpl. by rewrite <- app_assoc, drop_app_length.
Qed.

Lemma admit_then_complete_witness :
  ∃ w1 w2, mark_operation_running Op_Grind 3 w0 = Ok true w1
    ∧ mark_operation_finished Op_Grind 3 w1 = Ok tt w2
    ∧ Running w2 = Running w0.
Proof.
  destruct (admit_then_complete w0 Op_Grind 3 eq_refl ltac:(discriminate))
    as (w1 & w2 & H1 & H2 & H3 & _).
  by exists w1, w2.
Defined.

(** X5: a command for an operation that is running, other than pan
    and tilt, is dropped whole: it logs the warning and changes
    nothing else; no thread is started, no goal and no message goes
    out. *)
Theorem duplicate_command_dropped s op id r w :
  command_of s = Some (op, id) → op ≠ Pan → op ≠ Tilt →
  Running w !! LanderOpName op = Some r → r ≠ IDLE_ID →
  step s w = Ok tt (emit [ROS_LOG WARN (AlreadyRunning (LanderOpName op))] w).
Proof.
  intros Hcmd Hpan Htilt Hr Hne.
  destruct s; simpl in Hcmd; try discriminate Hcmd;
    injection Hcmd as <- <-; try done; simpl;
    unfold guardedMove, takePicture, digLinear, digCircular, grind, stow,
      unstow, deliver;
    unfold mbind at 1, M_bind at 1;
    by rewrite (mark_operation_running_busy _ _ _ r).
Qed.

Lemma duplicate_command_dropped_witness :
  step (do_stow 8) w_stow
  = Ok tt (emit [ROS_LOG WARN (AlreadyRunning Op_Stow)] w_stow).
Proof.
  apply (duplicate_command_dropped (do_stow 8) Stow 8 7 w_stow);
    [reflexivity | discriminate | discriminate | reflexivity | discriminate].
Defined.

(** ** The camera *)

(** X6: an image completes a running TakePicture with the command id
    the registry holds, calling the status callback once; with
    TakePicture idle the image is ignored, so further images after a
    completion change nothing. *)
Theorem cameraCallback_spec w r :
  Running w !! Op_TakePicture = Some r →
  ∃ w', cameraCallback w = Ok tt w'
    ∧ (r = IDLE_ID → w' = w)
    ∧ (r ≠ IDLE_ID →
         Running w' = <[Op_TakePicture := IDLE_ID]> (Running w)
         ∧ emitted w w'
           = [PublishOp "Running" false Op_TakePicture;
              PublishOp "Finished" true Op_TakePicture; CommandStatus r true])
    ∧ cameraCallback w' = Ok tt w'.
Proof.
  intros Hr.
  assert (Hidle : ∀ w1, Running w1 !! Op_TakePicture = Some IDLE_ID →
                        cameraCallback w1 = Ok tt w1).
  { intros w1 H1. unfold cameraCallback. unfold mbind at 1, M_bind at 1.
    by rewrite (operationRunning_known _ _ IDLE_ID). }
  destruct (decide (r = IDLE_ID)) as [->|Hne].
  { exists w. split_and!; [by apply Hidle | done | done | by apply Hidle]. }
  exists (complete_to Op_TakePicture r w). split_and!.
  - unfold cameraCallback. unfold mbind at 1, M_bind at 1.
    rewrite (operationRunning_known _ _ r) by done.
    destruct (Z.eqb_spec r IDLE_ID); [done|]. simpl.
    unfold mbind, M_bind, Running_at. rewrite Hr.
    by apply (mark_operation_finished_known _ _ _ r).
  - done.
  - intros _. split; [reflexivity|]. unfold complete_to.
    rewrite decide_False by done. by apply emitted_after.
  - apply Hidle. simpl. apply lookup_insert_eq.
Qed.

Lemma cameraCallback_witness :
  ∃ w', cameraCallback (admit_to Op_TakePicture 4 w0) = Ok tt w'
    ∧ Running w' !! Op_TakePicture = Some IDLE_ID
    ∧ cameraCallback w' = Ok tt w'.
Proof.
  destruct (cameraCallback_spec (admit_to Op_TakePicture 4 w0) 4 eq_refl)
    as (w' & Hrun & _ & Hdone & Hagain).
  exists w'. split_and!; [exact Hrun | | exact Hagain].
  destruct (Hdone ltac:(discriminate)) as [-> _]. reflexivity.
Defined.

(** ** Runs that do not throw *)

Section returns.
Context (P : World → Prop).

Lemma returns_ret {A} (a : A) : returns P (mret a).
Proof. intros w HP. by exists a, w. Qed.

Lemma returns_bind {A B} (m : M A) (f : A → M B) :
  returns P m → (∀ a, returns P (f a)) → returns P (m ≫= f).
Proof.
  intros Hm Hf w HP. destruct (Hm w HP) as (a & w1 & Hrun & HP1).
  destruct (Hf a w1 HP1) as (b & w2 & Hrun2 & HP2).
  exists b, w2. split; [|done]. unfold mbind, M_bind. by rewrite Hrun.
Qed.

Lemma returns_if {A} (b : bool) (m1 m2 : M A) :
  returns P m1 → returns P m2 → returns P (if b then m1 else m2).
Proof. by destruct b. Qed.

Lemma returns_skip : returns P skip.
Proof. apply returns_ret. Qed.

Lemma returns_when (c : bool) (m : M unit) :
  returns P m → returns P (when c m).
Proof. intros Hm. unfold when. apply returns_if; [done | apply returns_skip]. Qed.

Lemma returns_get {A} (proj : World → A) : returns P (get proj).
Proof. intros w HP. by exists (proj w), w. Qed.

Lemma returns_modify (f : World → World) :
  (∀ w, P w → P (f w)) → returns P (modify f).
Proof. intros Hf w HP. exists tt, (f w). split; [done | by apply Hf]. Qed.

Lemma returns_vec_at {A} (vec : list A) i :
  (i < length vec)%nat → returns P (vec_at vec i).
Proof.
  intros Hi w HP. destruct (lookup_lt_is_Some_2 vec i Hi) as [x Hx].
  exists x, w. split; [|done]. unfold vec_at. by rewrite Hx.
Qed.

Lemma returns_Running_at name :
  (∀ w, P w → is_Some (Running w !! name)) → returns P (Running_at name).
Proof.
  intros Hname w HP. destruct (Hname w HP) as [r Hr].
  exists r, w. split; [|done]. unfold Running_at. by rewrite Hr.
Qed.

Lemma returns_Running_assign name id :
  (∀ w, P w → is_Some (Running w !! name)
             ∧ P (set_Running <[name := id]> w)) →
  returns P (Running_assign name id).
Proof.
  intros Hname w HP. destruct (Hname w HP) as [[r Hr] HP'].
  exists tt, (set_Running <[name := id]> w). split; [|done].
  unfold Running_assign. by rewrite Hr.
Qed.

Lemma returns_for_each {A} (l : list A) (body : A → M unit) :
  (∀ x, returns P (body x)) → returns P (for_each l body).
Proof.
  intros Hbody. induction l as [|x l IH]; simpl.
  - apply returns_skip.
  - apply returns_bind; [apply Hbody | by intros _].
Qed.

Lemma returns_for_range i count (body : nat → M unit) :
  (∀ j, (i ≤ j < i + count)%nat → returns P (body j)) →
  returns P (for_range i count body).
Proof.
  revert i. induction count as [|count IH]; intros i Hbody; simpl.
  - apply returns_skip.
  - apply returns_bind; [apply Hbody; lia | intros _].
    apply IH. intros j Hj. apply Hbody. lia.
Qed.
End returns.

Lemma has_catalogue_insert name id w :
  has_catalogue w → has_catalogue (set_Running <[name := id]> w).
Proof.
  intros Hcat op. simpl. destruct (decide (name = LanderOpName op)) as [->|].
  - rewrite lookup_insert_eq. by eexists.
  - rewrite lookup_insert_ne by done. apply Hcat.
Qed.

Lemma has_catalogue_w0 : has_catalogue w0.
Proof. intros []; by eexists. Qed.

(* Walks a computation down to its primitives; [leaf] settles the
   side condition of one primitive. *)
Ltac returns_walk_step leaf :=
  lazymatch goal with
  | |- returns _ (mret _) => apply returns_ret
  | |- returns _ skip => apply returns_skip
  | |- returns _ (get _) => apply returns_get
  | |- returns _ (vec_at _ _) => apply returns_vec_at; leaf
  | |- returns _ (Running_at _) => apply returns_Running_at; leaf
  | |- returns _ (when _ _) => apply returns_when
  | |- returns _ (mbind _ _) => apply returns_bind; [|intros ?]
  | |- returns _ (for_each _ _) => apply returns_for_each; intros ?
  | |- returns _ (modify _) => apply returns_modify; leaf
  | |- returns _ (Running_assign _ _) => apply returns_Running_assign; leaf
  | |- returns _ (match ?x with _ => _ end) => destruct x
  | |- returns _ ?m =>
      let h := lazymatch m with
               | ?f _ _ _ _ _ _ _ _ => f | ?f _ _ _ _ _ _ _ => f
               | ?f _ _ _ _ _ _ => f | ?f _ _ _ _ _ => f | ?f _ _ _ _ => f
               | ?f _ _ _ => f | ?f _ _ => f | ?f _ => f | ?f => f
               end in
      unfold h
  end.

Ltac returns_walk leaf := repeat returns_walk_step leaf.

Ltac catalogue_leaf :=
  first
    [ lia
    | by intros w Hcat
    | intros w Hcat;
      first [ exact (Hcat GuardedMove) | exact (Hcat DigCircular)
            | exact (Hcat DigLinear) | exact (Hcat Deliver)
            | exact (Hcat Pan) | exact (Hcat Tilt) | exact (Hcat Grind)
            | exact (Hcat Stow) | exact (Hcat Unstow)
            | exact (Hcat TakePicture) ]
    | intros w Hcat; split; [|by apply has_catalogue_insert];
      first [ exact (Hcat GuardedMove) | exact (Hcat DigCircular)
            | exact (Hcat DigLinear) | exact (Hcat Deliver)
            | exact (Hcat Pan) | exact (Hcat Tilt) | exact (Hcat Grind)
            | exact (Hcat Stow) | exact (Hcat Unstow)
            | exact (Hcat TakePicture) ] ].

Lemma returns_jointStatesCallback msg :
  well_sized 9 msg → returns has_catalogue (jointStatesCallback msg).
Proof.
  intros (Hn & Hp & Hv & He). unfold jointStatesCallback.
  rewrite JointMap_size. apply returns_for_range. intros j Hj.
  returns_walk catalogue_leaf.
Qed.

Lemma returns_get_bind {A B} (P : World → Prop) (proj : World → A)
    (f : A → M B) :
  (∀ w, P w → ∃ b w', f (proj w) w = Ok b w' ∧ P w') →
  returns P (get proj ≫= f).
Proof. intros Hf w HP. exact (Hf w HP). Qed.

Lemma client_of_initialised op w :
  initialised w → is_action op = true →
  client_of op (clients w) = Some true.
Proof. intros [-> _] Hop. by destruct op. Qed.

Lemma ready_emit es w : ready w → ready (emit es w).
Proof. by intros (? & ? & ?). Qed.

Lemma returns_publish_on pub data : returns ready (publish_on pub data).
Proof.
  intros w Hw. exists tt, (emit [TopicPublish pub data] w).
  split; [|by apply ready_emit].
  destruct Hw as (_ & [_ Hpub] & _). unfold publish_on. munfold.
  rewrite Hpub. by destruct pub.
Qed.

Lemma returns_action_send t :
  is_action (th_op t) = true → returns ready (action_send t).
Proof.
  intros Hop w Hw. eexists tt, _. split.
  - apply action_send_sent, client_of_initialised; [apply Hw | exact Hop].
  - by apply ready_emit.
Qed.

Ltac catalogue_entry Hcat :=
  first [ exact (Hcat GuardedMove) | exact (Hcat DigCircular)
        | exact (Hcat DigLinear) | exact (Hcat Deliver)
        | exact (Hcat Pan) | exact (Hcat Tilt) | exact (Hcat Grind)
        | exact (Hcat Stow) | exact (Hcat Unstow)
        | exact (Hcat TakePicture) ].

Ltac ready_leaf :=
  let w := fresh "w" in
  let Hcat := fresh "Hcat" in
  let Hinit := fresh "Hinit" in
  let Hth := fresh "Hth" in
  first
    [ lia
    | intros w (Hcat & Hinit & Hth); catalogue_entry Hcat
    | intros w (Hcat & Hinit & Hth); split; [catalogue_entry Hcat|];
      unfold ready; split_and!;
      [by apply has_catalogue_insert | exact Hinit | exact Hth]
    | intros w (Hcat & Hinit & Hth); unfold ready; split_and!;
      [ exact Hcat | exact Hinit
      | first [ exact Hth
              | apply Forall_app; split; [exact Hth | by repeat constructor] ] ] ].

Lemma returns_ready_jointStatesCallback msg :
  well_sized 9 msg → returns ready (jointStatesCallback msg).
Proof.
  intros (Hn & Hp & Hv & He). unfold jointStatesCallback.
  rewrite JointMap_size. apply returns_for_range. intros j Hj.
  returns_walk ready_leaf.
Qed.

Lemma returns_schedule n : returns ready (schedule n).
Proof.
  apply returns_get_bind. intros w Hw.
  destruct (threads w !! n) as [t|] eqn:Ht; [|by apply returns_skip].
  assert (Hop : is_action (th_op t) = true).
  { destruct Hw as (_ & _ & Hth).
    by apply (proj1 (Forall_lookup _ _) Hth n t). }
  destruct (th_phase t); try (by apply returns_skip).
  apply returns_bind; [by apply returns_action_send | | exact Hw].
  intros _. apply returns_modify. intros w1 (Hcat & Hinit & Hth).
  unfold ready. split_and!; [exact Hcat | exact Hinit |].
  by apply Forall_insert.
Qed.

Lemma returns_resume n finished_before_timeout :
  returns ready (resume n finished_before_timeout).
Proof.
  apply returns_get_bind. intros w Hw.
  destruct (threads w !! n) as [t|] eqn:Ht; [|by apply returns_skip].
  assert (Hop : is_action (th_op t) = true).
  { destruct Hw as (_ & _ & Hth).
    by apply (proj1 (Forall_lookup _ _) Hth n t). }
  destruct (th_phase t); try (by apply returns_skip).
  apply returns_bind; [ | | exact Hw].
  - unfold action_reset. destruct (th_op t); returns_walk ready_leaf.
  - intros _. apply returns_modify. intros w1 (Hcat & Hinit & Hth).
    unfold ready. split_and!; [exact Hcat | exact Hinit |].
    by apply Forall_insert.
Qed.

Lemma returns_finish n : returns ready (finish n).
Proof.
  apply returns_get_bind. intros w Hw.
  destruct (threads w !! n) as [t|] eqn:Ht; [|by apply returns_skip].
  destruct (th_phase t); try (by apply returns_skip).
  apply returns_bind; [ | | exact Hw].
  - unfold action_notify. destruct (th_op t); returns_walk ready_leaf.
  - intros _. apply returns_modify. intros w1 (Hcat & Hinit & Hth).
    unfold ready. split_and!; [exact Hcat | exact Hinit |].
    by apply Forall_delete.
Qed.

(* The same walk on an initialised interface, where the publishers
   are there. *)
Ltac returns_ready_walk :=
  repeat first [ apply returns_publish_on | returns_walk_step ready_leaf ].

Lemma returns_step s : well_sized_step s → returns ready (step s).
Proof.
  destruct s; simpl; intros Hsized;
    lazymatch goal with
    | |- returns _ (jointStatesCallback _) =>
        by apply returns_ready_jointStatesCallback
    | |- returns _ (schedule _) => apply returns_schedule
    | |- returns _ (resume _ _) => apply returns_resume
    | |- returns _ (finish _) => apply returns_finish
    | |- _ => returns_ready_walk
    end.
Qed.

Lemma returns_run steps :
  Forall well_sized_step steps → returns ready (run steps).
Proof.
  intros Hsized. induction Hsized as [|s steps Hs _ IH].
  - apply returns_skip.
  - unfold run. simpl. apply returns_bind; [by apply returns_step|].
    intros _. exact IH.
Qed.

Lemma ready_connect_clients w :
  has_catalogue w → threads w = [] → ready (connect_clients w).
Proof.
  intros Hcat Hth. unfold ready. split_and!; [exact Hcat | done |].
  simpl. rewrite Hth. constructor.
Qed.

Lemma ready_w0 : ready (connect_clients w0).
Proof. apply ready_connect_clients; [apply has_catalogue_w0 | reflexivity]. Qed.



(** ** An action thread with its client *)

Lemma mark_operation_finished_reset_known w name r :
  Running w !! name = Some r →
  mark_operation_finished_reset name w
  = Ok tt (set_Running <[name := IDLE_ID]> w).
Proof.
  intros Hr. unfold mark_operation_finished_reset. munfold.
  rewrite Hr, lnot_never_idle. simpl. by rewrite Hr.
Qed.

Lemma mark_operation_finished_notify_run w name id :
  mark_operation_finished_notify name id w
  = Ok tt (emit ([PublishOp "Running" false name;
                  PublishOp "Finished" true name]
                 ++ (if decide (id = IDLE_ID) then []
                     else [CommandStatus id true])) w).
Proof.
  unfold mark_operation_finished_notify. munfold. simpl.
  destruct (Z.eqb_spec id IDLE_ID); case_decide; try done; simpl;
    by rewrite !emit_emit.
Qed.

(* The two stretches of a completion, one after the other, are
   mark_operation_finished, and those of a thread's tail are the tail
   of runAction and of guardedMoveAction. *)
Lemma mark_operation_finished_split name id w :
  mark_operation_finished name id w
  = (mark_operation_finished_reset name;;
     mark_operation_finished_notify name id) w.
Proof.
  unfold mark_operation_finished, mark_operation_finished_reset,
    mark_operation_finished_notify.
  munfold. destruct (Running w !! name) as [r|]; [|done].
  rewrite lnot_never_idle. simpl. by destruct (Running w !! name).
Qed.

Lemma runAction_finish_split opname id finished_before_timeout w :
  runAction_finish opname id finished_before_timeout w
  = (runAction_reset opname finished_before_timeout;;
     runAction_notify opname id) w.
Proof.
  unfold runAction_finish, runAction_reset, runAction_notify.
  unfold mbind, M_bind.
  destruct (when _ _ w) as [[] w1|e]; [|done].
  rewrite mark_operation_finished_split. unfold mbind, M_bind.
  by destruct (mark_operation_finished_reset opname w1).
Qed.

Lemma guardedMoveAction_finish_split id finished_before_timeout w :
  guardedMoveAction_finish id finished_before_timeout w
  = (guardedMoveAction_reset finished_before_timeout;;
     guardedMoveAction_notify id) w.
Proof.
  unfold guardedMoveAction_finish, guardedMoveAction_reset,
    guardedMoveAction_notify.
  unfold mbind, M_bind.
  destruct (when _ _ w) as [[] w1|e]; [|done].
  rewrite mark_operation_finished_split. unfold mbind, M_bind.
  by destruct (mark_operation_finished_reset Op_GuardedMove w1).
Qed.

Lemma action_reset_known t finished_before_timeout w r :
  Running w !! LanderOpName (th_op t) = Some r →
  action_reset t finished_before_timeout w
  = Ok tt (set_Running <[LanderOpName (th_op t) := IDLE_ID]>
             (emit (if finished_before_timeout then []
                    else [ROS_LOG WARN (time_out_warning (th_op t))]) w)).
Proof.
  intros Hr.
  assert (Hgen : ∀ msg,
    (when (negb finished_before_timeout) (ROS_WARN msg);;
     mark_operation_finished_reset (LanderOpName (th_op t))) w
    = Ok tt (set_Running <[LanderOpName (th_op t) := IDLE_ID]>
               (emit (if finished_before_timeout then []
                      else [ROS_LOG WARN msg]) w))).
  { intros msg. unfold mbind, M_bind.
    destruct finished_before_timeout; simpl; munfold; simpl;
      rewrite ?emit_nil;
      by rewrite (mark_operation_finished_reset_known _ _ r). }
  unfold action_reset, guardedMoveAction_reset, runAction_reset.
  destruct (th_op t) eqn:Hop; apply Hgen.
Qed.

Lemma action_notify_run t w :
  action_notify t w
  = Ok tt (emit ([PublishOp "Running" false (LanderOpName (th_op t));
                  PublishOp "Finished" true (LanderOpName (th_op t))]
                 ++ (if decide (th_id t = IDLE_ID) then []
                     else [CommandStatus (th_id t) true])
                 ++ [FaultThread thread_join (LanderOpName (th_op t))]) w).
Proof.
  assert (Hgen :
    (mark_operation_finished_notify (LanderOpName (th_op t)) (th_id t);;
     modify (emit [FaultThread thread_join (LanderOpName (th_op t))])) w
    = Ok tt (emit ([PublishOp "Running" false (LanderOpName (th_op t));
                    PublishOp "Finished" true (LanderOpName (th_op t))]
                   ++ (if decide (th_id t = IDLE_ID) then []
                       else [CommandStatus (th_id t) true])
                   ++ [FaultThread thread_join (LanderOpName (th_op t))]) w)).
  { unfold mbind, M_bind. rewrite mark_operation_finished_notify_run.
    unfold modify. rewrite emit_emit. by rewrite <- app_assoc. }
  unfold action_notify, guardedMoveAction_notify, runAction_notify.
  destruct (th_op t) eqn:Hop; apply Hgen.
Qed.

(** X8: an action thread whose client is there sends its goal and,
    when its wait returns, completes its operation whether or not the
    action finished before the time-out: the entry goes idle, then the
    notifications go out and the status callback is called once, with
    success = true, unless the id is the idle marker, and the thread
    leaves the pool. *)
Theorem action_thread_completes w n t finished_before_timeout :
  threads w !! n = Some t → th_phase t = Spawned →
  client_of (th_op t) (clients w) = Some true →
  is_Some (Running w !! LanderOpName (th_op t)) →
  ∃ w1 w2 w3, step (thread_begins n) w = Ok tt w1
    ∧ step (thread_returns n finished_before_timeout) w1 = Ok tt w2
    ∧ step (thread_ends n) w2 = Ok tt w3
    ∧ Running w2 = <[LanderOpName (th_op t) := IDLE_ID]> (Running w)
    ∧ Running w3 = <[LanderOpName (th_op t) := IDLE_ID]> (Running w)
    ∧ threads w3 = delete n (threads w)
    ∧ emitted w w3 = action_thread_events t finished_before_timeout.
Proof.
  intros Ht Hphase Hclient [r Hr].
  assert (Hn : (n < length (threads w))%nat) by by eapply lookup_lt_Some.
  set (w1 := set_threads <[n := in_phase Waiting t]>
               (emit [FaultThread thread_start (LanderOpName (th_op t));
                      SendGoal (LanderOpName (th_op t)) (th_goal t)] w)).
  assert (H1 : step (thread_begins n) w = Ok tt w1).
  { simpl. unfold schedule. unfold mbind at 1, M_bind at 1, get.
    rewrite Ht, Hphase. unfold mbind, M_bind.
    by rewrite action_send_sent. }
  assert (Ht1 : threads w1 !! n = Some (in_phase Waiting t)).
  { simpl. by apply list_lookup_insert_eq. }
  set (w2 := set_threads <[n := in_phase Finishing (in_phase Waiting t)]>
               (set_Running <[LanderOpName (th_op t) := IDLE_ID]>
                  (emit (if finished_before_timeout then []
                         else [ROS_LOG WARN (time_out_warning (th_op t))])
                     w1))).
  assert (H2 : step (thread_returns n finished_before_timeout) w1 = Ok tt w2).
  { simpl. unfold resume. unfold mbind at 1, M_bind at 1, get.
    rewrite Ht1. simpl. unfold mbind, M_bind.
    by rewrite (action_reset_known (in_phase Waiting t) _ _ r) by exact Hr. }
  assert (Ht2 : threads w2 !! n
                = Some (in_phase Finishing (in_phase Waiting t))).
  { simpl. apply list_lookup_insert_eq. by rewrite length_insert. }
  eexists w1, w2, _. split_and!; [exact H1 | exact H2 | | | | |].
  - simpl. unfold finish. unfold mbind at 1, M_bind at 1, get.
    rewrite Ht2. simpl. unfold mbind, M_bind.
    rewrite action_notify_run. reflexivity.
  - reflexivity.
  - reflexivity.
  - simpl. apply list_eq. intros j.
    rewrite !list_lookup_delete. case_decide.
    + by rewrite !list_lookup_insert_ne by lia.
    + by rewrite !list_lookup_insert_ne by lia.
  - unfold emitted, action_thread_events. simpl.
    rewrite <- !app_assoc. rewrite drop_app_length.
    by destruct finished_before_timeout.
Qed.

Lemma action_thread_completes_witness :
  ∃ w1 w2 w3,
    step (thread_begins 0) (connect_clients w_stow) = Ok tt w1
    ∧ step (thread_returns 0 false) w1 = Ok tt w2
    ∧ step (thread_ends 0) w2 = Ok tt w3
    ∧ threads w3 = []
    ∧ filter is_command_status (emitted (connect_clients w_stow) w3)
      = [CommandStatus 7 true].
Proof.
  destruct (action_thread_completes (connect_clients w_stow) 0
              {| th_op := Stow; th_goal := StowGoal 0; th_id := 7;
                 th_phase := Spawned |} false eq_refl eq_refl eq_refl)
    as (w1 & w2 & w3 & H1 & H2 & H3 & _ & _ & Hth & Hev).
  - by eexists.
  - exists w1, w2, w3.
    split_and!; [exact H1 | exact H2 | exact H3 | exact Hth |].
    rewrite Hev. reflexivity.
Defined.

(** ** More on the torque limits *)

Lemma handle_overtorque_run joint effort w :
  handle_overtorque joint effort w
  = Ok tt
      (let joint_name := plexilName (JointPropMap joint) in
       if fge (fabs effort) (hardTorqueLimit (JointPropMap joint)) then
         set_hard (λ s, s ∪ {[joint_name]}) w
       else if fge (fabs effort) (softTorqueLimit (JointPropMap joint)) then
         set_soft (λ s, s ∪ {[joint_name]}) w
       else set_soft (λ s, s ∖ {[joint_name]})
              (set_hard (λ s, s ∖ {[joint_name]}) w)).
Proof.
  unfold handle_overtorque. munfold. simpl.
  by destruct (fge (fabs effort) (hardTorqueLimit (JointPropMap joint))),
       (fge (fabs effort) (softTorqueLimit (JointPropMap joint))).
Qed.

(** X9: the hard limit sticks.  Once an effort at or above the hard
    limit has been seen for a joint, a later effort below the hard
    limit but at or above the soft limit leaves the joint reported at
    both limits. *)
Theorem hard_limit_sticks joint effort1 effort2 w :
  fge (fabs effort1) (hardTorqueLimit (JointPropMap joint)) = true →
  fge (fabs effort2) (hardTorqueLimit (JointPropMap joint)) = false →
  fge (fabs effort2) (softTorqueLimit (JointPropMap joint)) = true →
  ∃ w1 w2, handle_overtorque joint effort1 w = Ok tt w1
    ∧ handle_overtorque joint effort2 w1 = Ok tt w2
    ∧ hardTorqueLimitReached (plexilName (JointPropMap joint)) w2 = Ok true w2
    ∧ softTorqueLimitReached (plexilName (JointPropMap joint)) w2 = Ok true w2.
Proof.
  intros H1 H2 H3. eexists _, _. split_and!.
  - apply handle_overtorque_run.
  - apply handle_overtorque_run.
  - simpl. rewrite H1, H2, H3.
    unfold hardTorqueLimitReached, get. simpl.
    rewrite bool_decide_true; [done | set_solver].
  - simpl. rewrite H1, H2, H3.
    unfold softTorqueLimitReached, get. simpl.
    rewrite bool_decide_true; [done | set_solver].
Qed.

Lemma hard_limit_sticks_witness :
  ∃ w1 w2, handle_overtorque shoulder_yaw 85 w0 = Ok tt w1
    ∧ handle_overtorque shoulder_yaw 65 w1 = Ok tt w2
    ∧ hardTorqueLimitReached "ShoulderYaw" w2 = Ok true w2.
Proof.
  destruct (hard_limit_sticks shoulder_yaw 85 65 w0 eq_refl eq_refl eq_refl)
    as (w1 & w2 & H1 & H2 & H3 & _).
  by exists w1, w2.
Defined.

(** X10: a joint whose soft and hard limits are equal (the antenna
    joints and the grinder) is never added to the soft-limit set. *)
Theorem equal_limits_never_soft joint effort w w' :
  softTorqueLimit (JointPropMap joint) = hardTorqueLimit (JointPropMap joint) →
  handle_overtorque joint effort w = Ok tt w' →
  JointsAtSoftTorqueLimit w' ⊆ JointsAtSoftTorqueLimit w.
Proof.
  intros Heq Hrun. rewrite handle_overtorque_run in Hrun.
  injection Hrun as <-. simpl. rewrite Heq.
  destruct (fge (fabs effort) (hardTorqueLimit (JointPropMap joint)));
    simpl; [done | by apply subseteq_difference_l].
Qed.

Lemma equal_limits_never_soft_witness :
  ∃ w', handle_overtorque grinder 100 w0 = Ok tt w'
        ∧ JointsAtSoftTorqueLimit w' ⊆ JointsAtSoftTorqueLimit w0.
Proof.
  pose proof (handle_overtorque_run grinder 100 w0) as Hrun.
  eexists. split; [exact Hrun|].
  exact (equal_limits_never_soft grinder 100 w0 _ eq_refl Hrun).
Defined.

(** X11: an effort that is not a number takes the joint out of both
    limit sets, whatever the joint. *)
Theorem nan_effort_clears_limits joint w :
  ∃ w', handle_overtorque joint nan w = Ok tt w'
    ∧ JointsAtHardTorqueLimit w'
      = JointsAtHardTorqueLimit w ∖ {[plexilName (JointPropMap joint)]}
    ∧ JointsAtSoftTorqueLimit w'
      = JointsAtSoftTorqueLimit w ∖ {[plexilName (JointPropMap joint)]}.
Proof.
  eexists. split; [apply handle_overtorque_run|].
  by destruct joint.
Qed.

(** ** What the callbacks leave alone *)

(** X12: a joint-state callback changes no registry entry other than
    those of PanAntenna and TiltAntenna, and leaves the action
    threads, the antenna angles, goals and start times, the fault
    tables and the guarded-move result as they were. *)
Theorem jointStatesCallback_frame msg w w' :
  jointStatesCallback msg w = Ok tt w' → same_outside_joints w w'.
Proof.
  intros Hrun.
  assert (Hkeeps : keeps (same_outside_joints w) (jointStatesCallback msg)).
  { unfold jointStatesCallback.
    keeps_walk ltac:(intros w1 H1;
      first [ exact H1
            | intros _; destruct H1 as (HR & Hrest); split; [|exact Hrest];
              intros name Hpan Htilt; simpl;
              rewrite lookup_insert_ne by congruence; by apply HR ]). }
  apply (Hkeeps w tt w'); [|exact Hrun]. by split_and!.
Qed.

Lemma jointStatesCallback_frame_witness :
  ∃ w', jointStatesCallback long_msg (admit_to Op_Stow 7 w0) = Ok tt w'
        ∧ Running w' !! Op_Stow = Some 7.
Proof.
  destruct (returns_jointStatesCallback long_msg) with (w := admit_to Op_Stow 7 w0)
    as ([] & w' & Hrun & _).
  - repeat split; simpl; lia.
  - apply has_catalogue_insert, has_catalogue_w0.
  - exists w'. split; [exact Hrun|].
    destruct (jointStatesCallback_frame long_msg _ w' Hrun) as (HR & _).
    rewrite HR; [reflexivity | discriminate | discriminate].
Defined.

Lemma faultCallback_run d msg_val w :
  faultCallback d msg_val w
  = Ok tt (foldl (after_entry d msg_val) w
             (in_key_order (errors_of d (faults w)))).
Proof. unfold faultCallback. munfold. apply for_each_faultCallback_body. Qed.

(** X13: the flags of a fault domain follow the last bitmask alone:
    after two snapshots they are what the second snapshot alone would
    have left, and no fault name or bit value is ever added, dropped
    or changed. *)
Theorem fault_flags_follow_last_bitmask d msg_val1 msg_val2 w :
  ∃ w1 w2, faultCallback d msg_val1 w = Ok tt w1
    ∧ faultCallback d msg_val2 w1 = Ok tt w2
    ∧ errors_of d (faults w2) = retest msg_val2 <$> errors_of d (faults w)
    ∧ fst <$> errors_of d (faults w2) = fst <$> errors_of d (faults w).
Proof.
  eexists _, _. split; [apply faultCallback_run|].
  split; [apply faultCallback_run|].
  assert (Herr : errors_of d (faults
            (foldl (after_entry d msg_val2)
               (foldl (after_entry d msg_val1) w
                  (in_key_order (errors_of d (faults w))))
               (in_key_order (errors_of d (faults
                  (foldl (after_entry d msg_val1) w
                     (in_key_order (errors_of d (faults w)))))))))
          = retest msg_val2 <$> errors_of d (faults w)).
  { rewrite after_entries_errors, flip_in_all.
    rewrite after_entries_errors, flip_in_all.
    rewrite <- map_fmap_compose. apply map_fmap_ext. by intros k [v b] _. }
  split; [exact Herr|]. rewrite Herr.
  rewrite <- map_fmap_compose. apply map_fmap_ext. by intros k [v b] _.
Qed.

(** X14: a fault callback sends out log lines only, and changes
    neither the registry, nor the action threads, nor the antenna
    state, nor the torque-limit sets, nor the telemetry, nor the
    guarded-move result. *)
Theorem faultCallback_frame d msg_val w w' :
  faultCallback d msg_val w = Ok tt w' →
  same_outside_faults w w' ∧ Forall (λ e, is_log e = true) (emitted w w').
Proof.
  intros Hrun.
  assert (Hkeeps :
    keeps (λ w1, same_outside_faults w w1
                 ∧ Forall (λ e, is_log e = true)
                     (drop (length (trace w)) (trace w1)))
          (faultCallback d msg_val)).
  { keeps_walk ltac:(first
      [ intros w1 H1; exact H1
      | intros w1 (Hsame & Hlog); split; [exact Hsame|];
        simpl; apply forall_drop_app; [exact Hlog | by repeat constructor] ]). }
  apply (Hkeeps w tt w'); [|exact Hrun]. split.
  - by split_and!.
  - rewrite drop_all. constructor.
Qed.

Lemma faultCallback_frame_witness :
  ∃ w', faultCallback ARM 3 w_stow = Ok tt w'
        ∧ Running w' = Running w_stow ∧ threads w' = threads w_stow.
Proof.
  pose proof (faultCallback_run ARM 3 w_stow) as Hrun.
  eexists. split; [exact Hrun|].
  destruct (faultCallback_frame ARM 3 w_stow _ Hrun) as ((HR & Hth & _) & _).
  by split.
Defined.

Lemma keeps_ground (found : bool) (pos : float) s :
  is_guarded_move_done s = false →
  keeps (λ w, GroundFound w = found ∧ GroundPosition w = pos) (step s).
Proof.
  intros Hs. destruct s; try discriminate Hs; clear Hs; simpl;
    keeps_walk ltac:(intros w1 H1; first [exact H1 | intros _; exact H1]).
Qed.

(** X15: the guarded-move result (GroundFound, GroundPosition) changes
    only when a guarded-move result is delivered; every other step,
    a new guardedMove command included, leaves the last result in
    place. *)
Theorem ground_result_persists steps w w' :
  Forall (λ s, is_guarded_move_done s = false) steps →
  run steps w = Ok tt w' →
  GroundFound w' = GroundFound w ∧ GroundPosition w' = GroundPosition w.
Proof.
  intros Hsteps. revert w.
  induction Hsteps as [|s steps Hs _ IH]; intros w Hrun.
  { by injection Hrun as <-. }
  unfold run in Hrun. simpl in Hrun. unfold mbind, M_bind in Hrun.
  destruct (step s w) as [[] w1|e] eqn:Hstep; [|done].
  destruct (keeps_ground (GroundFound w) (GroundPosition w) s Hs w tt w1
              (conj eq_refl eq_refl) Hstep) as [<- <-].
  by apply IH.
Qed.

Lemma ground_result_persists_witness :
  ∃ w', run [do_guardedMove 0 0 0 0 0 1 0 5; thread_begins 0;
             thread_returns 0 true; thread_ends 0]
            (connect_clients (set_ground true 1 w0)) = Ok tt w'
        ∧ GroundFound w' = true.
Proof.
  destruct (returns_run [do_guardedMove 0 0 0 0 0 1 0 5; thread_begins 0;
                         thread_returns 0 true; thread_ends 0])
    with (w := connect_clients (set_ground true 1 w0))
    as ([] & w' & Hrun & _).
  - by repeat constructor.
  - apply ready_connect_clients; [|reflexivity].
    apply (has_catalogue_keys w0); [reflexivity | apply has_catalogue_w0].
  - exists w'. split; [exact Hrun|].
    destruct (ground_result_persists
                [do_guardedMove 0 0 0 0 0 1 0 5; thread_begins 0;
                 thread_returns 0 true; thread_ends 0]
                (connect_clients (set_ground true 1 w0)) w') as [Hfound _];
      [by repeat constructor | exact Hrun | exact Hfound].
Defined.

(** ** One action thread per operation *)

Lemma holding_at pool n t :
  pool !! n = Some t →
  holding pool
  = holding (take n pool) ++ (if before_reset t then [t] else [])
    ++ holding (drop (S n) pool).
Proof.
  intros Ht. rewrite <- (take_drop_middle pool n t Ht) at 1.
  unfold holding. rewrite filter_app, filter_cons.
  by destruct (before_reset t).
Qed.

Lemma holding_insert pool n t :
  (n < length pool)%nat →
  holding (<[n := t]> pool)
  = holding (take n pool) ++ (if before_reset t then [t] else [])
    ++ holding (drop (S n) pool).
Proof.
  intros Hn. rewrite insert_take_drop by exact Hn.
  unfold holding. rewrite filter_app, filter_cons.
  by destruct (before_reset t).
Qed.

Lemma holding_delete pool n :
  holding (delete n pool)
  = holding (take n pool) ++ holding (drop (S n) pool).
Proof. rewrite delete_take_drop. unfold holding. by rewrite filter_app. Qed.

Lemma holding_snoc pool t :
  before_reset t = true → holding (pool ++ [t]) = holding pool ++ [t].
Proof.
  intros Ht. unfold holding. rewrite filter_app, filter_cons, Ht.
  by rewrite decide_True.
Qed.

Lemma thread_holds_assign_other w t name id :
  name ≠ LanderOpName (th_op t) →
  thread_holds w t → thread_holds (set_Running <[name := id]> w) t.
Proof.
  intros Hne (Hact & Hid & HR). split_and!; [done | done |].
  simpl. by rewrite lookup_insert_ne.
Qed.

(* Assigning the entry of an operation that no thread holds. *)
Lemma exclusive_assign_free w name id :
  Forall (λ t, name ≠ LanderOpName (th_op t)) (holding (threads w)) →
  exclusive w → exclusive (set_Running <[name := id]> w).
Proof.
  intros Hfree [Hnd Hall]. split; [exact Hnd|]. simpl.
  rewrite Forall_forall in Hfree. rewrite Forall_forall in Hall.
  apply Forall_forall. intros t Ht.
  apply thread_holds_assign_other; [by apply Hfree | by apply Hall].
Qed.

Lemma exclusive_assign_antenna_camera w name id :
  (∀ op, is_action op = true → name ≠ LanderOpName op) →
  exclusive w → exclusive (set_Running <[name := id]> w).
Proof.
  intros Hname Hex. apply exclusive_assign_free; [|exact Hex].
  destruct Hex as [_ Hall]. eapply Forall_impl; [exact Hall|].
  intros t (Hact & _). by apply Hname.
Qed.

Lemma keeps_exclusive_dispatch op goal id :
  is_action op = true → id ≠ IDLE_ID →
  keeps exclusive
    (accepted ← mark_operation_running (LanderOpName op) id;
     if negb accepted then skip else spawn_action_thread op goal id).
Proof.
  intros Hact Hid w a w' Hex Hrun.
  unfold mbind at 1, M_bind at 1 in Hrun.
  destruct (Running w !! LanderOpName op) as [r|] eqn:Hr.
  2:{ unfold mark_operation_running, mbind, M_bind, Running_at in Hrun.
      by rewrite Hr in Hrun. }
  destruct (decide (r = IDLE_ID)) as [->|Hne].
  - rewrite mark_operation_running_idle in Hrun by done.
    injection Hrun as _ <-.
    assert (Hfree : Forall (λ t, LanderOpName op ≠ LanderOpName (th_op t))
                      (holding (threads w))).
    { destruct Hex as [_ Hall]. eapply Forall_impl; [exact Hall|].
      intros t (_ & Htid & HR) Heq. rewrite <- Heq, Hr in HR. congruence. }
    destruct (exclusive_assign_free w (LanderOpName op) id Hfree Hex)
      as [Hnd Hall].
    split; simpl; rewrite holding_snoc by reflexivity.
    + rewrite fmap_app. apply NoDup_app. split_and!; [exact Hnd | |].
      * intros op' Hin Hop'.
        apply list_elem_of_fmap in Hin as (t & -> & Ht).
        apply list_elem_of_singleton in Hop'. simpl in Hop'.
        rewrite Forall_forall in Hfree. apply (Hfree t Ht). by rewrite Hop'.
      * apply NoDup_singleton.
    + apply Forall_app. split; [exact Hall|]. constructor; [|constructor].
      split_and!; [done | done |]. simpl. apply lookup_insert_eq.
  - rewrite (mark_operation_running_busy _ _ _ r) in Hrun by done.
    by injection Hrun as _ <-.
Qed.

Lemma action_send_emits t w a w' :
  action_send t w = Ok a w' → ∃ es, w' = emit es w.
Proof.
  unfold action_send, guardedMoveAction_send, runAction_send.
  destruct (th_op t); munfold; simpl;
    try lazymatch goal with
        | |- context [if ?c then _ else _] => destruct c
        end;
    intros Heq; try discriminate Heq;
    injection Heq as _ <-; rewrite ?emit_emit; by eexists.
Qed.

(* From its start to its wait a thread holds its entry. *)
Lemma keeps_exclusive_schedule n : keeps exclusive (schedule n).
Proof.
  intros w a w' [Hnd Hall] Hrun. unfold schedule in Hrun.
  unfold mbind at 1, M_bind at 1, get in Hrun.
  destruct (threads w !! n) as [t|] eqn:Ht; [|by injection Hrun as _ <-].
  destruct (th_phase t) eqn:Hphase; try (by injection Hrun as _ <-).
  unfold mbind, M_bind in Hrun.
  destruct (action_send t w) as [[] w1|e] eqn:Hsend; [|done].
  destruct (action_send_emits t w _ _ Hsend) as [es ->].
  injection Hrun as _ <-.
  assert (Hn : (n < length (threads w))%nat) by by eapply lookup_lt_Some.
  assert (Hbefore : before_reset t = true).
  { unfold before_reset. by rewrite Hphase. }
  rewrite (holding_at _ n t Ht), Hbefore in Hnd, Hall.
  unfold exclusive. simpl. rewrite holding_insert by exact Hn. simpl.
  split.
  - by rewrite !fmap_app in *.
  - apply Forall_app in Hall as [Hleft Hright].
    apply Forall_app in Hright as [Hmid Hright].
    rewrite Forall_singleton in Hmid.
    apply Forall_app. split; [exact Hleft|].
    apply Forall_cons. split; [exact Hmid | exact Hright].
Qed.

(* Setting its entry idle, a thread gives it up; the other threads
   hold entries of other names. *)
Lemma keeps_exclusive_resume n finished_before_timeout :
  keeps exclusive (resume n finished_before_timeout).
Proof.
  intros w a w' [Hnd Hall] Hrun. unfold resume in Hrun.
  unfold mbind at 1, M_bind at 1, get in Hrun.
  destruct (threads w !! n) as [t|] eqn:Ht; [|by injection Hrun as _ <-].
  destruct (th_phase t) eqn:Hphase; try (by injection Hrun as _ <-).
  assert (Hn : (n < length (threads w))%nat) by by eapply lookup_lt_Some.
  assert (Hbefore : before_reset t = true).
  { unfold before_reset. by rewrite Hphase. }
  rewrite (holding_at _ n t Ht), Hbefore in Hnd, Hall.
  apply Forall_app in Hall as [Hleft Hright].
  apply Forall_app in Hright as [Hmid Hright].
  rewrite Forall_singleton in Hmid. destruct Hmid as (_ & _ & HR).
  unfold mbind, M_bind in Hrun.
  rewrite (action_reset_known t _ _ (th_id t)) in Hrun by exact HR.
  injection Hrun as _ <-.
  unfold exclusive. simpl. rewrite holding_insert by exact Hn. simpl.
  rewrite !fmap_app in Hnd. simpl in Hnd.
  apply NoDup_app in Hnd as (Hnd_left & Hcross & Hnd_right).
  apply NoDup_cons in Hnd_right as [Hfresh Hnd_right].
  split.
  - rewrite fmap_app. apply NoDup_app. split_and!; [done | | done].
    intros op Hin Hop. apply (Hcross op Hin). by right.
  - apply Forall_app. split; apply Forall_forall; intros t' Ht'.
    + rewrite Forall_forall in Hleft.
      destruct (Hleft t' Ht') as (Hact & Hid & HR').
      split_and!; [done | done |]. simpl.
      rewrite lookup_insert_ne; [done|].
      intros Heq. apply LanderOpName_inj in Heq.
      apply (Hcross (th_op t)); [|by left].
      rewrite Heq. by apply list_elem_of_fmap_2.
    + rewrite Forall_forall in Hright.
      destruct (Hright t' Ht') as (Hact & Hid & HR').
      split_and!; [done | done |]. simpl.
      rewrite lookup_insert_ne; [done|].
      intros Heq. apply LanderOpName_inj in Heq.
      apply Hfresh. rewrite Heq. by apply list_elem_of_fmap_2.
Qed.

(* From there to its end a thread holds nothing and writes nothing to
   the registry. *)
Lemma keeps_exclusive_finish n : keeps exclusive (finish n).
Proof.
  intros w a w' [Hnd Hall] Hrun. unfold finish in Hrun.
  unfold mbind at 1, M_bind at 1, get in Hrun.
  destruct (threads w !! n) as [t|] eqn:Ht; [|by injection Hrun as _ <-].
  destruct (th_phase t) eqn:Hphase; try (by injection Hrun as _ <-).
  assert (Hbefore : before_reset t = false).
  { unfold before_reset. by rewrite Hphase. }
  rewrite (holding_at _ n t Ht), Hbefore in Hnd, Hall.
  unfold mbind, M_bind in Hrun. rewrite action_notify_run in Hrun.
  injection Hrun as _ <-.
  unfold exclusive. simpl. rewrite holding_delete. by split.
Qed.

Ltac exclusive_leaf :=
  intros w1 H1;
  first [ exact H1
        | intros _; apply exclusive_assign_antenna_camera;
          [by intros [] | exact H1] ].

Lemma keeps_exclusive s : proper_id s → keeps exclusive (step s).
Proof.
  intros Hid.
  assert (Hcmd : ∀ op id, command_of s = Some (op, id) → id ≠ IDLE_ID)
    by exact Hid.
  destruct s; simpl in Hcmd; simpl;
    lazymatch goal with
    | |- keeps _ (guardedMove _ _ _ _ _ _ _ ?id) =>
        by apply (keeps_exclusive_dispatch GuardedMove), (Hcmd GuardedMove)
    | |- keeps _ (digLinear _ _ _ _ _ ?id) =>
        by apply (keeps_exclusive_dispatch DigLinear), (Hcmd DigLinear)
    | |- keeps _ (digCircular _ _ _ _ _ ?id) =>
        by apply (keeps_exclusive_dispatch DigCircular), (Hcmd DigCircular)
    | |- keeps _ (grind _ _ _ _ _ _ ?id) =>
        by apply (keeps_exclusive_dispatch Grind), (Hcmd Grind)
    | |- keeps _ (stow ?id) =>
        by apply (keeps_exclusive_dispatch Stow), (Hcmd Stow)
    | |- keeps _ (unstow ?id) =>
        by apply (keeps_exclusive_dispatch Unstow), (Hcmd Unstow)
    | |- keeps _ (deliver _ _ _ ?id) =>
        by apply (keeps_exclusive_dispatch Deliver), (Hcmd Deliver)
    | |- keeps _ (schedule _) => apply keeps_exclusive_schedule
    | |- keeps _ (resume _ _) => apply keeps_exclusive_resume
    | |- keeps _ (finish _) => apply keeps_exclusive_finish
    | |- _ => keeps_walk exclusive_leaf
    end.
Qed.

(** X16: with command ids other than the idle marker, every run keeps
    the action threads exclusive up to the assignment with which each
    sets its entry idle: no two threads of the pool that have yet to
    make that assignment work on the same operation, and until a
    thread makes it the registry shows its operation running with the
    thread's command id.  Past that assignment a thread holds nothing:
    it takes no lock, and while it sends its notifications its
    operation can be admitted again and get a second thread. *)
Theorem run_keeps_exclusive steps w w' :
  exclusive w → Forall proper_id steps →
  run steps w = Ok tt w' → exclusive w'.
Proof.
  intros Hex Hsteps. revert w Hex.
  induction Hsteps as [|s steps Hs _ IH]; intros w Hex Hrun.
  { by injection Hrun as <-. }
  unfold run in Hrun. simpl in Hrun. unfold mbind, M_bind in Hrun.
  destruct (step s w) as [[] w1|e] eqn:Hstep; [|done].
  apply (IH w1); [|exact Hrun].
  by apply (keeps_exclusive s Hs w tt w1).
Qed.

Lemma exclusive_w0 : exclusive (connect_clients w0).
Proof. split; simpl; constructor. Qed.

Lemma run_keeps_exclusive_witness :
  ∃ w', run [do_stow 7; do_unstow 8; thread_begins 1; thread_begins 0;
             thread_returns 0 true; do_stow 9] (connect_clients w0) = Ok tt w'
        ∧ NoDup (th_op <$> holding (threads w')).
Proof.
  destruct (returns_run [do_stow 7; do_unstow 8; thread_begins 1;
                         thread_begins 0; thread_returns 0 true; do_stow 9])
    with (w := connect_clients w0) as ([] & w' & Hrun & _).
  - by repeat constructor.
  - exact ready_w0.
  - exists w'. split; [exact Hrun|].
    destruct (run_keeps_exclusive
                [do_stow 7; do_unstow 8; thread_begins 1; thread_begins 0;
                 thread_returns 0 true; do_stow 9] (connect_clients w0) w'
                exclusive_w0) as [Hnd _]; [|exact Hrun|exact Hnd].
    repeat constructor; intros op id [= <- <-]; discriminate.
Defined.

(** X20: an action thread takes no lock between setting its entry
    idle and sending its notifications, so its operation can be
    admitted again in between: Stow, completed for command 7 up to
    that assignment, is admitted with 9 and gets a second thread
    beside the first; the first thread then publishes Running = false
    and Finished = true for Stow and reports 7 while the registry
    shows Stow running with 9. *)
Theorem second_thread_before_first_ends :
  let steps := [do_stow 7; thread_begins 0; thread_returns 0 true;
                do_stow 9] in
  let w := connect_clients w0 in
  after steps w (λ w', th_op <$> threads w') = Some [Stow; Stow]
  ∧ after steps w (λ w', Running w' !! Op_Stow) = Some (Some 9)
  ∧ after (steps ++ [thread_ends 0]) w (λ w', Running w' !! Op_Stow)
    = Some (Some 9)
  ∧ after (steps ++ [thread_ends 0]) w trace
    = Some [PublishOp "Running" true Op_Stow;
            FaultThread thread_start Op_Stow; SendGoal Op_Stow (StowGoal 0);
            PublishOp "Running" true Op_Stow;
            PublishOp "Running" false Op_Stow;
            PublishOp "Finished" true Op_Stow;
            CommandStatus 7 true; FaultThread thread_join Op_Stow].
Proof. split_and!; vm_compute; reflexivity. Qed.

(** ** Antenna and camera commands before initialize() *)


(** ** The telemetry table *)

Lemma keeps_for_range_bounded (P : World → Prop) i count
    (body : nat → M unit) :
  (∀ j, (i ≤ j < i + count)%nat → keeps P (body j)) →
  keeps P (for_range i count body).
Proof.
  revert i. induction count as [|count IH]; intros i Hbody; simpl.
  - apply keeps_skip.
  - apply keeps_bind; [apply Hbody; lia | intros _].
    apply IH. intros j Hj. apply Hbody. lia.
Qed.

Lemma for_range_split i a b (body : nat → M unit) w :
  for_range i (a + b) body w
  = match for_range i a body w with
    | Ok _ w1 => for_range (i + a) b body w1
    | Throw e => Throw e
    end.
Proof.
  revert i w. induction a as [|a IH]; intros i w; simpl.
  { by rewrite Nat.add_0_r. }
  unfold mbind, M_bind. destruct (body i w) as [[] w1|e]; [|done].
  rewrite IH. by replace (S i + a)%nat with (i + S a)%nat by lia.
Qed.

(* A turn of the loop on an entry that does not name [j] leaves the
   telemetry of [j] alone. *)
Lemma jointStatesCallback_body_other msg i j (x : option JointTelemetry) :
  ¬ names_joint msg i j →
  keeps (λ w, JointTelemetryMap w !! j = x) (jointStatesCallback_body msg i).
Proof.
  intros Hother w a w' HP Hrun. unfold jointStatesCallback_body in Hrun.
  unfold mbind at 1, M_bind at 1, vec_at at 1 in Hrun.
  destruct (js_name msg !! i) as [ros_name|] eqn:Hname; [|done].
  destruct (JointMap !! ros_name) as [joint|] eqn:Hjoint.
  2:{ by injection Hrun as _ <-. }
  assert (Hne : joint ≠ j).
  { intros ->. apply Hother. by exists ros_name. }
  revert w a w' HP Hrun.
  change (keeps (λ w, JointTelemetryMap w !! j = x)
    (position ← vec_at (js_position msg) i;
     velocity ← vec_at (js_velocity msg) i;
     effort ← vec_at (js_effort msg) i;
     a ← get antenna;
     (if decide (joint = antenna_pan) then
        managePanTilt Op_PanAntenna position velocity
          (m_currentPan a) (m_goalPan a) (m_panStart a)
      else if decide (joint = antenna_tilt) then
        managePanTilt Op_TiltAntenna position velocity
          (m_currentTilt a) (m_goalTilt a) (m_tiltStart a)
      else skip);;
     modify (set_telemetry
               <[joint := Build_JointTelemetry position velocity effort]>);;
     publish_real (plexilName (JointPropMap joint) +:+ "Position") position;;
     publish_real (plexilName (JointPropMap joint) +:+ "Velocity") velocity;;
     publish_real (plexilName (JointPropMap joint) +:+ "Effort") effort;;
     handle_joint_fault joint i msg)).
  keeps_walk ltac:(intros w1 H1;
    first [ exact H1
          | simpl; by rewrite lookup_insert_ne
          | intros _; exact H1 ]).
Qed.

(* A turn of the loop on an entry that names [j] stores its sample. *)
Lemma jointStatesCallback_body_stores msg i j w w' :
  names_joint msg i j →
  jointStatesCallback_body msg i w = Ok tt w' →
  JointTelemetryMap w' !! j = sample_at msg i.
Proof.
  intros (ros_name & Hname & Hjoint) Hrun.
  unfold jointStatesCallback_body in Hrun.
  unfold mbind at 1, M_bind at 1, vec_at at 1 in Hrun.
  rewrite Hname, Hjoint in Hrun. unfold sample_at.
  unfold mbind at 1, M_bind at 1, vec_at at 1 in Hrun.
  destruct (js_position msg !! i) as [p|]; [|done].
  unfold mbind at 1, M_bind at 1, vec_at at 1 in Hrun.
  destruct (js_velocity msg !! i) as [v|]; [|done].
  unfold mbind at 1, M_bind at 1, vec_at at 1 in Hrun.
  destruct (js_effort msg !! i) as [e|]; [|done]. simpl.
  unfold mbind at 1, M_bind at 1, get in Hrun.
  unfold mbind at 1, M_bind at 1 in Hrun.
  match type of Hrun with
  | match ?m w with _ => _ end = _ =>
      destruct (m w) as [[] w1|err] eqn:Hpt; [|done]
  end.
  unfold mbind at 1, M_bind at 1, modify at 1 in Hrun.
  set (w2 := set_telemetry <[j := Build_JointTelemetry p v e]> w1) in Hrun.
  assert (Hkeeps : keeps (λ w3, JointTelemetryMap w3 !! j
                                = JointTelemetryMap w2 !! j)
    (publish_real (plexilName (JointPropMap j) +:+ "Position") p;;
     publish_real (plexilName (JointPropMap j) +:+ "Velocity") v;;
     publish_real (plexilName (JointPropMap j) +:+ "Effort") e;;
     handle_joint_fault j i msg)).
  { keeps_walk ltac:(intros w3 H3; exact H3). }
  rewrite (Hkeeps w2 tt w' eq_refl Hrun). simpl. apply lookup_insert_eq.
Qed.

(** X17: after a joint-state callback the telemetry table holds, for a
    joint named among the first nine entries, the sample of the last
    entry that names it, and for a joint named by none of them what it
    held before. *)
Theorem telemetry_last_sample msg w w' :
  jointStatesCallback msg w = Ok tt w' →
  (∀ j, (∀ i, (i < 9)%nat → ¬ names_joint msg i j) →
        JointTelemetryMap w' !! j = JointTelemetryMap w !! j)
  ∧ (∀ i j, (i < 9)%nat → names_joint msg i j →
            (∀ i', (i < i' < 9)%nat → ¬ names_joint msg i' j) →
            JointTelemetryMap w' !! j = sample_at msg i).
Proof.
  unfold jointStatesCallback. rewrite JointMap_size. intros Hrun. split.
  - intros j Hnone.
    apply (keeps_for_range_bounded
             (λ w1, JointTelemetryMap w1 !! j = JointTelemetryMap w !! j)
             0 9 (jointStatesCallback_body msg)) with (w := w) (a := tt);
      [|done|exact Hrun].
    intros i Hi. apply jointStatesCallback_body_other, Hnone. lia.
  - intros i j Hi Hnames Hlast.
    replace 9%nat with (i + S (8 - i))%nat in Hrun by lia.
    rewrite for_range_split in Hrun.
    destruct (for_range 0 i (jointStatesCallback_body msg) w)
      as [[] w1|e]; [|done].
    simpl in Hrun. unfold mbind, M_bind in Hrun.
    destruct (jointStatesCallback_body msg i w1) as [[] w2|e] eqn:Hbody;
      [|done].
    rewrite <- (jointStatesCallback_body_stores msg i j w1 w2 Hnames Hbody).
    apply (keeps_for_range_bounded
             (λ w3, JointTelemetryMap w3 !! j = JointTelemetryMap w2 !! j)
             (S i) (8 - i) (jointStatesCallback_body msg))
      with (w := w2) (a := tt); [|done|exact Hrun].
    intros i' Hi'. apply jointStatesCallback_body_other, Hlast. lia.
Qed.

Lemma telemetry_last_sample_witness :
  ∃ w', jointStatesCallback long_msg w0 = Ok tt w'
        ∧ JointTelemetryMap w' !! grinder = Some (Build_JointTelemetry 0 0 0).
Proof.
  destruct (returns_jointStatesCallback long_msg) with (w := w0)
    as ([] & w' & Hrun & _).
  - repeat split; simpl; lia.
  - exact has_catalogue_w0.
  - exists w'. split; [exact Hrun|].
    destruct (telemetry_last_sample long_msg w0 w' Hrun) as [_ Hlast].
    rewrite (Hlast 8%nat grinder); [reflexivity | lia | |].
    + exists "j_grinder". by split.
    + intros i' Hi'. lia.
Defined.


(** ** The tables *)

(** X18: the joint tables agree.  JointMap sends a ROS name to a joint
    exactly when JointPropMap gives that joint this ROS name; no two
    joints share a PLEXIL name, under which the torque-limit sets and
    the published telemetry are keyed; and no soft limit exceeds its
    hard limit. *)
Theorem joint_tables_agree :
  (∀ ros_name j,
     JointMap !! ros_name = Some j ↔ rosName (JointPropMap j) = ros_name)
  ∧ (∀ j1 j2, plexilName (JointPropMap j1) = plexilName (JointPropMap j2) →
              j1 = j2)
  ∧ (∀ j, PrimFloat.leb (softTorqueLimit (JointPropMap j))
                        (hardTorqueLimit (JointPropMap j)) = true).
Proof.
  split_and!.
  - intros ros_name j. split.
    + intros Hj. apply elem_of_list_to_map_2 in Hj.
      repeat (apply elem_of_cons in Hj as [[= -> ->]|Hj]; [reflexivity|]).
      by apply elem_of_nil in Hj.
    + intros <-. by destruct j.
  - intros j1 j2 Heq. destruct j1, j2; try reflexivity; discriminate Heq.
  - by intros [].
Qed.

(** X19: the interface as constructed has every operation of the
    catalogue in its registry and idle, the registry holds no other
    name, no action thread exists, and no publisher and no action
    client is there yet. *)
Theorem World_init_spec f pan_start tilt_start now :
  let w := World_init f pan_start tilt_start now in
  has_catalogue w ∧ threads w = []
  ∧ (∀ op, running (LanderOpName op) w = Ok false w)
  ∧ dom (Running w) = list_to_set LanderOpNames
  ∧ (∀ pub, publisher_set pub (publishers w) = false)
  ∧ (∀ op, is_action op = true → client_of op (clients w) = Some false).
Proof.
  split_and!.
  - intros []; by eexists.
  - reflexivity.
  - by intros [].
  - reflexivity.
  - by intros [].
  - by intros [].
Qed.
